(** * A shallow embedding of the Monkey tree-walking evaluator

    The development follows the Go sources: package [ast] (node shapes, as
    the evaluator consumes them), package [object] (runtime values and the
    chained [Environment]) and package [evaluator] ([Eval] and its helpers).

    Go features that the evaluator relies on are written out explicitly:
    - [object.Object] is an interface value: either [nil] or a pointer to a
      struct.  Every [&object.T{...}] allocation draws a fresh pointer from
      the state, so that the pointer comparison [left == right] of
      [evalInfixExpression] can be evaluated.  [TRUE], [FALSE] and [NULL]
      are package-level singletons and carry no pointer.
    - [*object.Environment] is a pointer to a mutable store plus an [outer]
      link fixed at creation; stores live in the state, indexed by address.
    - a method call on a nil interface, an out-of-range slice index and an
      integer division by zero are Go run-time panics, not [object.Error]s.
    - recursion through [Eval] is bounded by a fuel argument. *)

From Stdlib Require Import ZArith Lia.
From stdpp Require Import gmap strings list fin_maps.

Set Warnings "-register-all".
Local Open Scope Z_scope.

(** ** Package ast *)

Module ast.

Inductive Expression : Type :=
| Identifier (Value : string)
| IntegerLiteral (Value : Z)
| Boolean (Value : bool)
| StringLiteral (Value : string)
| PrefixExpression (Operator : string) (Right : Expression)
| InfixExpression (Left : Expression) (Operator : string) (Right : Expression)
| IfExpression (Condition : Expression) (Consequence : list Statement)
    (Alternative : option (list Statement))
| FunctionLiteral (Parameters : list string) (Body : list Statement)
| CallExpression (Function : Expression) (Arguments : list Expression)
| ArrayLiteral (Elements : list Expression)
| IndexExpression (Left : Expression) (Index : Expression)
| HashLiteral (Pairs : list (Expression * Expression))
with Statement : Type :=
| LetStatement (Name : string) (Value : Expression)
| ReturnStatement (ReturnValue : Expression)
| ExpressionStatement (Expression_ : Expression).

(** The interface [ast.Node], by the concrete shapes [Eval] switches on.
    A [*ast.BlockStatement] is its statement list. *)
Inductive Node : Type :=
| Program (Statements : list Statement)
| BlockStatement (Statements : list Statement)
| Stmt (s : Statement)
| Expr (e : Expression).

End ast.

Coercion ast.Expr : ast.Expression >-> ast.Node.
Coercion ast.Stmt : ast.Statement >-> ast.Node.

(** ** Package object *)

Module object.

Inductive ObjectType : Set :=
| INTEGER_OBJ | BOOLEAN_OBJ | NULL_OBJ | RETURN_VALUE_OBJ | ERROR_OBJ
| FUNCTION_OBJ | STRING_OBJ | BUILTIN_OBJ | ARRAY_OBJ | HASH_OBJ.

Definition ObjectType_code (t : ObjectType) : nat :=
  match t with
  | INTEGER_OBJ => 0 | BOOLEAN_OBJ => 1 | NULL_OBJ => 2
  | RETURN_VALUE_OBJ => 3 | ERROR_OBJ => 4 | FUNCTION_OBJ => 5
  | STRING_OBJ => 6 | BUILTIN_OBJ => 7 | ARRAY_OBJ => 8 | HASH_OBJ => 9
  end%nat.

Definition ObjectType_of_code (n : nat) : ObjectType :=
  match n with
  | 0 => INTEGER_OBJ | 1 => BOOLEAN_OBJ | 2 => NULL_OBJ
  | 3 => RETURN_VALUE_OBJ | 4 => ERROR_OBJ | 5 => FUNCTION_OBJ
  | 6 => STRING_OBJ | 7 => BUILTIN_OBJ | 8 => ARRAY_OBJ | _ => HASH_OBJ
  end%nat.

#[global] Instance ObjectType_eq_dec : EqDecision ObjectType.
Proof. solve_decision. Defined.

#[global] Instance ObjectType_countable : Countable ObjectType.
Proof.
  refine (inj_countable' ObjectType_code ObjectType_of_code _).
  by intros [].
Defined.

(** [object.HashKey]: the kind tag plus a discriminating integer. *)
Record HashKey : Set := mkHashKey { hk_Type : ObjectType; hk_Value : Z }.

#[global] Instance HashKey_eq_dec : EqDecision HashKey.
Proof. solve_decision. Defined.

#[global] Instance HashKey_countable : Countable HashKey.
Proof.
  refine (inj_countable' (fun k => (hk_Type k, hk_Value k))
            (fun p => mkHashKey p.1 p.2) _).
  by intros [].
Defined.

(** [*object.Environment]: the address of the mutable [store] and the
    [outer] link, which [NewEnclosedEnvironment] sets once. *)
Inductive Environment : Set :=
| Env (store : nat) (outer : option Environment).

Definition store_of (e : Environment) : nat :=
  match e with Env a _ => a end.

Definition outer_of (e : Environment) : option Environment :=
  match e with Env _ o => o end.

(** [object.Object].  The first argument of an allocated variant is its
    pointer.  [Builtin] carries the registry name of its entry; the native
    function itself is supplied by the host (see [Host]). *)
Inductive Object : Type :=
| nil
| Integer (ptr : nat) (Value : Z)
| Boolean (Value : bool)
| Null
| String (ptr : nat) (Value : string)
| ReturnValue (ptr : nat) (Value : Object)
| Error (ptr : nat) (Message : string)
| Function (ptr : nat) (Parameters : list string)
    (Body : list ast.Statement) (Env_ : Environment)
| Builtin (name : string)
| Array (ptr : nat) (Elements : list Object)
| Hash (ptr : nat) (Pairs : gmap HashKey (Object * Object)).

(** The method [Type()]; [None] stands for the call on a nil interface. *)
Definition Type_ (o : Object) : option ObjectType :=
  match o with
  | nil => None
  | Integer _ _ => Some INTEGER_OBJ
  | Boolean _ => Some BOOLEAN_OBJ
  | Null => Some NULL_OBJ
  | String _ _ => Some STRING_OBJ
  | ReturnValue _ _ => Some RETURN_VALUE_OBJ
  | Error _ _ => Some ERROR_OBJ
  | Function _ _ _ _ => Some FUNCTION_OBJ
  | Builtin _ => Some BUILTIN_OBJ
  | Array _ _ => Some ARRAY_OBJ
  | Hash _ _ => Some HASH_OBJ
  end.

(** Go's [==] on two interface values holding pointers: same dynamic type
    and same pointer. *)
Definition same_object (l r : Object) : bool :=
  match l, r with
  | nil, nil => true
  | Integer p _, Integer q _ => Nat.eqb p q
  | Boolean a, Boolean b => Bool.eqb a b
  | Null, Null => true
  | String p _, String q _ => Nat.eqb p q
  | ReturnValue p _, ReturnValue q _ => Nat.eqb p q
  | Error p _, Error q _ => Nat.eqb p q
  | Function p _ _ _, Function q _ _ _ => Nat.eqb p q
  | Builtin a, Builtin b => bool_decide (a = b)
  | Array p _, Array q _ => Nat.eqb p q
  | Hash p _, Hash q _ => Nat.eqb p q
  | _, _ => false
  end.

(** The evaluator's state: the environment stores by address, the next
    free object pointer, and the number of map range loops started so far
    (the only input of Go's unspecified map iteration order). *)
Record State : Type := mkState {
  stores : list (gmap string Object);
  next_ptr : nat;
  ranges : nat
}.

Inductive GoPanic : Set :=
| NilDereference | IndexOutOfRange | DivideByZero | TypeAssertion.

Inductive Outcome (A : Type) : Type :=
| Done (a : A) (st : State)
| Panic (p : GoPanic)
| OutOfFuel.

Arguments Done {A} a st.
Arguments Panic {A} p.
Arguments OutOfFuel {A}.

Definition M (A : Type) : Type := State -> Outcome A.

Definition ret {A} (a : A) : M A := fun st => Done a st.

Definition bind {A B} (m : M A) (k : A -> M B) : M B :=
  fun st =>
    match m st with
    | Done a st' => k a st'
    | Panic p => Panic p
    | OutOfFuel => OutOfFuel
    end.

Definition panic {A} (p : GoPanic) : M A := fun _ => Panic p.

Definition out_of_fuel {A} : M A := fun _ => OutOfFuel.

(** A fresh pointer for [&object.T{...}]. *)
Definition alloc : M nat :=
  fun st => Done (next_ptr st)
              (mkState (stores st) (S (next_ptr st)) (ranges st)).

(** The number of the range loop being started. *)
Definition next_range : M nat :=
  fun st => Done (ranges st)
              (mkState (stores st) (next_ptr st) (S (ranges st))).

(** [o.Type()] as a computation: panics on a nil interface. *)
Definition typeOf (o : Object) : M ObjectType :=
  match Type_ o with
  | Some t => ret t
  | None => panic NilDereference
  end.

(** *** environment.go *)

Definition store_at (h : list (gmap string Object)) (a : nat)
  : gmap string Object :=
  default ∅ (h !! a).

(** [NewEnvironment]: a fresh empty store, no outer scope. *)
Definition NewEnvironment : M Environment :=
  fun st => Done (Env (length (stores st)) None)
              (mkState (stores st ++ [∅]) (next_ptr st) (ranges st)).

(** [NewEnclosedEnvironment]. *)
Definition NewEnclosedEnvironment (outer : Environment) : M Environment :=
  bind NewEnvironment (fun env => ret (Env (store_of env) (Some outer))).

(** [Environment.Get], on a given heap of stores: the pair [(val, ok)].
    A missing key reads Go's zero value [nil]. *)
Fixpoint Get_in (h : list (gmap string Object)) (e : Environment)
    (key : string) : Object * bool :=
  match e with
  | Env a outer =>
      match store_at h a !! key with
      | Some val => (val, true)
      | None =>
          match outer with
          | Some o => Get_in h o key
          | None => (nil, false)
          end
      end
  end.

Definition Get (e : Environment) (key : string) : M (Object * bool) :=
  fun st => Done (Get_in (stores st) e key) st.

(** [Environment.Set]: writes the receiver's own store only. *)
Definition Set_ (e : Environment) (key : string) (value : Object)
  : M Object :=
  fun st =>
    Done value
      (mkState (alter (fun s => <[key := value]> s) (store_of e) (stores st))
         (next_ptr st) (ranges st)).

End object.

(** ** Package evaluator *)

Module evaluator.

Import object.

Declare Scope go_scope.
Delimit Scope go_scope with go.
Notation "'let*' x ':=' m 'in' k" := (bind m (fun x => k))
  (at level 10, x name, m at level 100, k at level 200) : go_scope.
Local Open Scope go_scope.

(** What the evaluator uses from files that are not part of the verified
    sources:
    - [type_name]: the string constants [object.INTEGER_OBJ], ... that
      [Type()] returns, as [%s] prints them in error messages (the kinds
      themselves are compared as the enumeration [ObjectType]);
    - [string_hash]: the content hash of [String.HashKey()];
    - [builtins] and [builtin_Fn]: the names bound in the registry
      [builtins] and the native function [Fn] of each entry;
    - [range_order]: the order in which the [n]-th range loop of a run
      enumerates [ast.HashLiteral.Pairs], a Go map keyed by the key
      expression nodes (the list argument is the source order).  Go leaves
      the order unspecified; it is some enumeration of the same pairs. *)
Record Host : Type := mkHost {
  type_name : ObjectType -> string;
  string_hash : string -> Z;
  builtins : gset string;
  builtin_Fn : string -> list Object -> M Object;
  range_order :
    nat -> list (ast.Expression * ast.Expression) ->
    list (ast.Expression * ast.Expression);
  range_order_perm : forall n l, range_order n l ≡ₚ l
}.

Definition NULL : Object := Null.
Definition TRUE : Object := Boolean true.
Definition FALSE : Object := Boolean false.

(** Two's complement wrap-around of [int64] arithmetic. *)
Definition wrap64 (z : Z) : Z := (z + 2 ^ 63) `mod` 2 ^ 64 - 2 ^ 63.

Definition nativeBoolToBooleanObject (input : bool) : Object :=
  if input then TRUE else FALSE.

Definition isTruthy (obj : Object) : bool :=
  if same_object obj NULL then false
  else if same_object obj TRUE then true
  else if same_object obj FALSE then false
  else true.

(** [newError(format, a...)]; the callers below write the formatted
    message out by concatenation. *)
Definition newError (message : string) : M Object :=
  let* p := alloc in ret (Error p message).

Definition isError (obj : Object) : bool :=
  match Type_ obj with
  | Some t => bool_decide (t = ERROR_OBJ)
  | None => false
  end.

Definition unwrapReturnValue (obj : Object) : Object :=
  match obj with
  | ReturnValue _ value => value
  | _ => obj
  end.

Definition evalBangOperatorExpression (right : Object) : Object :=
  if same_object right TRUE then FALSE
  else if same_object right FALSE then TRUE
  else if same_object right NULL then TRUE
  else FALSE.

Section WithHost.

Context (host : Host).

(** Modelled from the spec: the interface [object.Hashable] and its method
    [HashKey()], which are declared in the object package outside the
    evaluator sources.  Integer, Boolean and String derive a key: the kind
    tag plus the integer value, 0/1, or the content hash. *)
Definition HashKey_of (o : Object) : option HashKey :=
  match o with
  | Integer _ value => Some (mkHashKey INTEGER_OBJ value)
  | Boolean value => Some (mkHashKey BOOLEAN_OBJ (if value then 1 else 0))
  | String _ value => Some (mkHashKey STRING_OBJ (string_hash host value))
  | _ => None
  end.

Definition evalMinusPrefixOperatorExpression (right : Object) : M Object :=
  let* t := typeOf right in
  if decide (t ≠ INTEGER_OBJ) then
    newError ("unknown operator: -" +:+ type_name host t)
  else
    match right with
    | Integer _ value =>
        let* p := alloc in ret (Integer p (wrap64 (- value)))
    | _ => panic TypeAssertion
    end.

Definition evalPrefixExpression (operator : string) (right : Object)
  : M Object :=
  if decide (operator = "!") then ret (evalBangOperatorExpression right)
  else if decide (operator = "-") then
    evalMinusPrefixOperatorExpression right
  else
    let* t := typeOf right in
    newError ("unknown operator: " +:+ operator +:+ type_name host t).

(** The message of the two three-place formats ["... %s %s %s"]. *)
Definition infix_message (prefix : string) (l : ObjectType)
    (operator : string) (r : ObjectType) : string :=
  prefix +:+ type_name host l +:+ " " +:+ operator +:+ " "
    +:+ type_name host r.

Definition evalIntegerInfixExpression (operator : string)
    (left right : Object) : M Object :=
  match left, right with
  | Integer _ leftValue, Integer _ rightValue =>
      if decide (operator = "+") then
        let* p := alloc in ret (Integer p (wrap64 (leftValue + rightValue)))
      else if decide (operator = "-") then
        let* p := alloc in ret (Integer p (wrap64 (leftValue - rightValue)))
      else if decide (operator = "*") then
        let* p := alloc in ret (Integer p (wrap64 (leftValue * rightValue)))
      else if decide (operator = "/") then
        if decide (rightValue = 0) then panic DivideByZero
        else
          let* p := alloc in
          ret (Integer p (wrap64 (leftValue ÷ rightValue)))
      else if decide (operator = "<") then
        ret (nativeBoolToBooleanObject (bool_decide (leftValue < rightValue)))
      else if decide (operator = ">") then
        ret (nativeBoolToBooleanObject (bool_decide (leftValue > rightValue)))
      else if decide (operator = "==") then
        ret (nativeBoolToBooleanObject (bool_decide (leftValue = rightValue)))
      else if decide (operator = "!=") then
        ret (nativeBoolToBooleanObject (bool_decide (leftValue ≠ rightValue)))
      else
        newError
          (infix_message "unknown operator: " INTEGER_OBJ operator
             INTEGER_OBJ)
  | _, _ => panic TypeAssertion
  end.

Definition evalStringInfixExpression (operator : string)
    (left right : Object) : M Object :=
  match left, right with
  | String _ leftValue, String _ rightValue =>
      if decide (operator = "+") then
        let* p := alloc in ret (String p (leftValue +:+ rightValue))
      else if decide (operator = "==") then
        ret (nativeBoolToBooleanObject (bool_decide (leftValue = rightValue)))
      else if decide (operator = "!=") then
        ret (nativeBoolToBooleanObject (bool_decide (leftValue ≠ rightValue)))
      else
        newError
          (infix_message "unknown operator: " STRING_OBJ operator STRING_OBJ)
  | _, _ => panic TypeAssertion
  end.

(** [left.Type() == t && right.Type() == t]: the right operand's [Type()]
    is called only when the left test succeeds. *)
Definition both_of_type (t : ObjectType) (left right : Object) : M bool :=
  let* lt := typeOf left in
  if decide (lt = t) then
    let* rt := typeOf right in ret (bool_decide (rt = t))
  else ret false.

Definition evalInfixExpression (operator : string) (left right : Object)
  : M Object :=
  let* ints := both_of_type INTEGER_OBJ left right in
  if ints then evalIntegerInfixExpression operator left right
  else
    let* strs := both_of_type STRING_OBJ left right in
    if strs then evalStringInfixExpression operator left right
    else if decide (operator = "==") then
      ret (nativeBoolToBooleanObject (same_object left right))
    else if decide (operator = "!=") then
      ret (nativeBoolToBooleanObject (negb (same_object left right)))
    else
      let* lt := typeOf left in
      let* rt := typeOf right in
      if decide (lt ≠ rt) then
        newError (infix_message "type mismatch: " lt operator rt)
      else newError (infix_message "unknown operator: " lt operator rt).

Definition evalIdentifier (name : string) (env : Environment) : M Object :=
  let* found := Get env name in
  let (value, ok) := found in
  if ok then ret value
  else if decide (name ∈ builtins host) then ret (Builtin name)
  else newError ("identifier not found: " +:+ name).

Definition evalArrayIndexExpression (array index : Object) : M Object :=
  match array, index with
  | Array _ elements, Integer _ idx =>
      let max := Z.of_nat (length elements) - 1 in
      if decide (idx < 0 ∨ idx > max) then ret NULL
      else
        match elements !! Z.to_nat idx with
        | Some element => ret element
        | None => panic IndexOutOfRange
        end
  | _, _ => panic TypeAssertion
  end.

Definition evalHashIndexExpression (hash key : Object) : M Object :=
  match hash with
  | Hash _ pairs =>
      match HashKey_of key with
      | None =>
          let* t := typeOf key in
          newError ("unusable as hash key: " +:+ type_name host t)
      | Some hashKey =>
          match pairs !! hashKey with
          | None => ret NULL
          | Some hashPair => ret hashPair.2
          end
      end
  | _ => panic TypeAssertion
  end.

Definition evalIndexExpression (left index : Object) : M Object :=
  let* lt := typeOf left in
  let* arr :=
    (if decide (lt = ARRAY_OBJ) then
       let* it := typeOf index in ret (bool_decide (it = INTEGER_OBJ))
     else ret false) in
  if arr then evalArrayIndexExpression left index
  else if decide (lt = HASH_OBJ) then evalHashIndexExpression left index
  else newError ("index operator not supported: " +:+ type_name host lt).

(** The loop of [extendFunctionEnv]: [env.Set(param.Value, args[paramIdx])]
    for each parameter; [args[paramIdx]] panics when out of range. *)
Fixpoint bind_parameters (env : Environment) (params : list string)
    (args : list Object) (paramIdx : nat) : M unit :=
  match params with
  | [] => ret tt
  | param :: rest =>
      match args !! paramIdx with
      | Some arg =>
          let* done_ := Set_ env param arg in
          bind_parameters env rest args (S paramIdx)
      | None => panic IndexOutOfRange
      end
  end.

Definition extendFunctionEnv (Parameters : list string)
    (fnEnv : Environment) (args : list Object) : M Environment :=
  let* env := NewEnclosedEnvironment fnEnv in
  let* done_ := bind_parameters env Parameters args 0 in
  ret env.

(** *** The functions that call [Eval]

    They take the recursive call [ev] as an argument; [Eval] below ties
    the knot on the fuel. *)

Section Recursive.

Context (ev : ast.Node -> Environment -> M Object).

Fixpoint evalProgram_from (result : Object) (stmts : list ast.Statement)
    (env : Environment) : M Object :=
  match stmts with
  | [] => ret result
  | statement :: rest =>
      let* result := ev (ast.Stmt statement) env in
      match result with
      | ReturnValue _ value => ret value
      | Error _ _ => ret result
      | _ => evalProgram_from result rest env
      end
  end.

Definition evalProgram (stmts : list ast.Statement) (env : Environment)
  : M Object :=
  evalProgram_from nil stmts env.

(** [result != nil && (rt == RETURN_VALUE_OBJ || rt == ERROR_OBJ)]. *)
Definition is_signal (result : Object) : bool :=
  match Type_ result with
  | Some rt => bool_decide (rt = RETURN_VALUE_OBJ ∨ rt = ERROR_OBJ)
  | None => false
  end.

Fixpoint evalStatements_from (result : Object) (stmts : list ast.Statement)
    (env : Environment) : M Object :=
  match stmts with
  | [] => ret result
  | statement :: rest =>
      let* result := ev (ast.Stmt statement) env in
      if is_signal result then ret result
      else evalStatements_from result rest env
  end.

Definition evalStatements (stmts : list ast.Statement) (env : Environment)
  : M Object :=
  evalStatements_from nil stmts env.

Definition evalIfExpression (Condition : ast.Expression)
    (Consequence : list ast.Statement)
    (Alternative : option (list ast.Statement)) (env : Environment)
  : M Object :=
  let* condition := ev (ast.Expr Condition) env in
  if isError condition then ret condition
  else if isTruthy condition then ev (ast.BlockStatement Consequence) env
  else
    match Alternative with
    | Some alternative => ev (ast.BlockStatement alternative) env
    | None => ret NULL
    end.

Fixpoint evalExpressions_from (result : list Object)
    (exps : list ast.Expression) (env : Environment) : M (list Object) :=
  match exps with
  | [] => ret result
  | exp :: rest =>
      let* eval := ev (ast.Expr exp) env in
      if isError eval then ret [eval]
      else evalExpressions_from (result ++ [eval]) rest env
  end.

Definition evalExpressions (exps : list ast.Expression) (env : Environment)
  : M (list Object) :=
  evalExpressions_from [] exps env.

Definition applyFunction (fn : Object) (args : list Object) : M Object :=
  match fn with
  | Function _ Parameters Body fnEnv =>
      let* extendedEnv := extendFunctionEnv Parameters fnEnv args in
      let* evaluated := ev (ast.BlockStatement Body) extendedEnv in
      ret (unwrapReturnValue evaluated)
  | Builtin name => builtin_Fn host name args
  | _ =>
      let* t := typeOf fn in
      newError ("not a function: " +:+ type_name host t)
  end.

(** The body of the range loop of [evalHashLiteral], over the pairs in
    the order the loop enumerates them; [pairs] is the map [hash.Pairs]
    built so far and [ptr] the pointer of [hash]. *)
Fixpoint evalHashLiteral_from (ptr : nat)
    (pairs : gmap HashKey (Object * Object))
    (todo : list (ast.Expression * ast.Expression)) (env : Environment)
  : M Object :=
  match todo with
  | [] => ret (Hash ptr pairs)
  | (key, value) :: rest =>
      let* keyObject := ev (ast.Expr key) env in
      if isError keyObject then ret keyObject
      else
        match HashKey_of keyObject with
        | None =>
            let* t := typeOf keyObject in
            newError ("unusable as hash key: " +:+ type_name host t)
        | Some hashedKey =>
            let* valueObject := ev (ast.Expr value) env in
            if isError valueObject then ret valueObject
            else
              evalHashLiteral_from ptr
                (<[hashedKey := (keyObject, valueObject)]> pairs) rest env
        end
  end.

Definition evalHashLiteral (Pairs : list (ast.Expression * ast.Expression))
    (env : Environment) : M Object :=
  let* ptr := alloc in
  let* n := next_range in
  evalHashLiteral_from ptr ∅ (range_order host n Pairs) env.

(** One level of [Eval]'s type switch. *)
Definition Eval_node (node : ast.Node) (env : Environment) : M Object :=
  match node with
  | ast.Program Statements => evalProgram Statements env
  | ast.Stmt (ast.ExpressionStatement e) => ev (ast.Expr e) env
  | ast.BlockStatement Statements => evalStatements Statements env
  | ast.Stmt (ast.ReturnStatement e) =>
      let* returnValueEvaluated := ev (ast.Expr e) env in
      if isError returnValueEvaluated then ret returnValueEvaluated
      else let* p := alloc in ret (ReturnValue p returnValueEvaluated)
  | ast.Stmt (ast.LetStatement Name Value) =>
      let* evaluated := ev (ast.Expr Value) env in
      if isError evaluated then ret evaluated
      else let* done_ := Set_ env Name evaluated in ret nil
  | ast.Expr (ast.IntegerLiteral Value) =>
      let* p := alloc in ret (Integer p Value)
  | ast.Expr (ast.Boolean Value) => ret (nativeBoolToBooleanObject Value)
  | ast.Expr (ast.StringLiteral Value) =>
      let* p := alloc in ret (String p Value)
  | ast.Expr (ast.PrefixExpression Operator Right) =>
      let* rightEvaluated := ev (ast.Expr Right) env in
      if isError rightEvaluated then ret rightEvaluated
      else evalPrefixExpression Operator rightEvaluated
  | ast.Expr (ast.InfixExpression Left Operator Right) =>
      let* leftEvaluated := ev (ast.Expr Left) env in
      if isError leftEvaluated then ret leftEvaluated
      else
        let* rightEvaluated := ev (ast.Expr Right) env in
        if isError rightEvaluated then ret rightEvaluated
        else evalInfixExpression Operator leftEvaluated rightEvaluated
  | ast.Expr (ast.IfExpression Condition Consequence Alternative) =>
      evalIfExpression Condition Consequence Alternative env
  | ast.Expr (ast.Identifier Value) => evalIdentifier Value env
  | ast.Expr (ast.FunctionLiteral Parameters Body) =>
      let* p := alloc in ret (Function p Parameters Body env)
  | ast.Expr (ast.CallExpression Function_ Arguments) =>
      let* function := ev (ast.Expr Function_) env in
      if isError function then ret function
      else
        let* args := evalExpressions Arguments env in
        match args with
        | [arg] =>
            if isError arg then ret arg else applyFunction function args
        | _ => applyFunction function args
        end
  | ast.Expr (ast.ArrayLiteral Elements) =>
      let* elements := evalExpressions Elements env in
      match elements with
      | [element] =>
          if isError element then ret element
          else let* p := alloc in ret (Array p elements)
      | _ => let* p := alloc in ret (Array p elements)
      end
  | ast.Expr (ast.IndexExpression Left Index) =>
      let* left := ev (ast.Expr Left) env in
      if isError left then ret left
      else
        let* index := ev (ast.Expr Index) env in
        if isError index then ret index
        else evalIndexExpression left index
  | ast.Expr (ast.HashLiteral Pairs) => evalHashLiteral Pairs env
  end.

End Recursive.

(** [Eval], with the recursion depth bounded by [fuel]. *)
Fixpoint Eval (fuel : nat) (node : ast.Node) (env : Environment)
  : M Object :=
  match fuel with
  | O => out_of_fuel
  | S fuel' => Eval_node (Eval fuel') node env
  end.

End WithHost.

End evaluator.

(** ** The evaluator before strings, arrays, hashes and builtins

    [evaluator/evaluator.go] is the earlier revision of the same file.  Its
    [Eval] has no case for string, array, hash and index nodes, its
    [evalInfixExpression] has no String case, and the two functions below
    differ; every other function is, line by line, the one of module
    [evaluator]. *)

Module evaluator_base.

Import object evaluator.
Local Open Scope go_scope.

Section WithHost.

Context (host : Host).

Definition evalIdentifier (name : string) (env : Environment) : M Object :=
  let* found := Get env name in
  let (value, ok) := found in
  if negb ok then newError ("identifier not found: " +:+ name)
  else ret value.

Definition applyFunction (ev : ast.Node -> Environment -> M Object)
    (fn : Object) (args : list Object) : M Object :=
  match fn with
  | Function _ Parameters Body fnEnv =>
      let* extendedEnv := extendFunctionEnv Parameters fnEnv args in
      let* evaluated := ev (ast.BlockStatement Body) extendedEnv in
      ret (unwrapReturnValue evaluated)
  | _ =>
      let* t := typeOf fn in
      newError ("not a function: " +:+ type_name host t)
  end.

Definition evalInfixExpression (operator : string) (left right : Object)
  : M Object :=
  let* ints := both_of_type INTEGER_OBJ left right in
  if ints then evalIntegerInfixExpression host operator left right
  else if decide (operator = "==") then
    ret (nativeBoolToBooleanObject (same_object left right))
  else if decide (operator = "!=") then
    ret (nativeBoolToBooleanObject (negb (same_object left right)))
  else
    let* lt := typeOf left in
    let* rt := typeOf right in
    if decide (lt ≠ rt) then
      newError (infix_message host "type mismatch: " lt operator rt)
    else newError (infix_message host "unknown operator: " lt operator rt).

(** One level of the type switch of this revision's [Eval]; a node of
    any other shape falls out of the switch to [return nil]. *)
Definition Eval_node (ev : ast.Node -> Environment -> M Object)
    (node : ast.Node) (env : Environment) : M Object :=
  match node with
  | ast.Program Statements => evalProgram ev Statements env
  | ast.Stmt (ast.ExpressionStatement e) => ev (ast.Expr e) env
  | ast.BlockStatement Statements => evalStatements ev Statements env
  | ast.Stmt (ast.ReturnStatement e) =>
      let* returnValueEvaluated := ev (ast.Expr e) env in
      if isError returnValueEvaluated then ret returnValueEvaluated
      else let* p := alloc in ret (ReturnValue p returnValueEvaluated)
  | ast.Stmt (ast.LetStatement Name Value) =>
      let* evaluated := ev (ast.Expr Value) env in
      if isError evaluated then ret evaluated
      else let* done_ := Set_ env Name evaluated in ret nil
  | ast.Expr (ast.IntegerLiteral Value) =>
      let* p := alloc in ret (Integer p Value)
  | ast.Expr (ast.Boolean Value) => ret (nativeBoolToBooleanObject Value)
  | ast.Expr (ast.PrefixExpression Operator Right) =>
      let* rightEvaluated := ev (ast.Expr Right) env in
      if isError rightEvaluated then ret rightEvaluated
      else evalPrefixExpression host Operator rightEvaluated
  | ast.Expr (ast.InfixExpression Left Operator Right) =>
      let* leftEvaluated := ev (ast.Expr Left) env in
      if isError leftEvaluated then ret leftEvaluated
      else
        let* rightEvaluated := ev (ast.Expr Right) env in
        if isError rightEvaluated then ret rightEvaluated
        else evalInfixExpression Operator leftEvaluated rightEvaluated
  | ast.Expr (ast.IfExpression Condition Consequence Alternative) =>
      evalIfExpression ev Condition Consequence Alternative env
  | ast.Expr (ast.Identifier Value) => evalIdentifier Value env
  | ast.Expr (ast.FunctionLiteral Parameters Body) =>
      let* p := alloc in ret (Function p Parameters Body env)
  | ast.Expr (ast.CallExpression Function_ Arguments) =>
      let* function := ev (ast.Expr Function_) env in
      if isError function then ret function
      else
        let* args := evalExpressions ev Arguments env in
        match args with
        | [arg] =>
            if isError arg then ret arg else applyFunction ev function args
        | _ => applyFunction ev function args
        end
  | _ => ret nil
  end.

Fixpoint Eval (fuel : nat) (node : ast.Node) (env : Environment)
  : M Object :=
  match fuel with
  | O => out_of_fuel
  | S fuel' => Eval_node (Eval fuel') node env
  end.

End WithHost.

End evaluator_base.

(** ** A host to run programs with

    The kind names are the upper-case tags [Type()] conventionally returns,
    strings hash by 64-bit FNV-1a, map range loops enumerate in source
    order, and the registry binds the single name [len].  Every theorem
    that does not mention [example_host] holds for all hosts. *)

Module example.

Import object evaluator.
Local Open Scope go_scope.

Definition kind_name (t : ObjectType) : string :=
  match t with
  | INTEGER_OBJ => "INTEGER" | BOOLEAN_OBJ => "BOOLEAN" | NULL_OBJ => "NULL"
  | RETURN_VALUE_OBJ => "RETURN_VALUE" | ERROR_OBJ => "ERROR"
  | FUNCTION_OBJ => "FUNCTION" | STRING_OBJ => "STRING"
  | BUILTIN_OBJ => "BUILTIN" | ARRAY_OBJ => "ARRAY" | HASH_OBJ => "HASH"
  end.

Fixpoint fnv64a_from (h : Z) (s : string) : Z :=
  match s with
  | EmptyString => h
  | String.String c rest =>
      fnv64a_from
        ((Z.lxor h (Z.of_N (Ascii.N_of_ascii c)) * 1099511628211)
           `mod` 2 ^ 64) rest
  end.

Definition fnv64a (s : string) : Z := fnv64a_from 14695981039346656037 s.

Definition len (args : list Object) : M Object :=
  match args with
  | [String _ value] =>
      let* p := alloc in ret (Integer p (Z.of_nat (String.length value)))
  | [Array _ elements] =>
      let* p := alloc in ret (Integer p (Z.of_nat (length elements)))
  | _ => newError "argument to `len` not supported"
  end.

Definition source_order (n : nat)
    (l : list (ast.Expression * ast.Expression)) := l.


Definition example_host : Host :=
  mkHost kind_name fnv64a {["len"]} (fun _ => len) source_order
    (fun _ l => Permutation_refl l).


(** The state in which a host starts: the global environment
    [NewEnvironment()] at address 0, nothing else allocated. *)
Definition initial_state : State := mkState [∅] 0 0.

Definition global : Environment := Env 0 None.

(** Surface syntax for the sample programs. *)
Definition int (z : Z) : ast.Expression := ast.IntegerLiteral z.
Definition var (x : string) : ast.Expression := ast.Identifier x.
Definition expr (e : ast.Expression) : ast.Statement :=
  ast.ExpressionStatement e.

(** [let adder = fn(x) { fn(y) { x + y } }; let add5 = adder(5);] *)
Definition adder_defs : list ast.Statement :=
  [ ast.LetStatement "adder"
      (ast.FunctionLiteral ["x"]
         [expr (ast.FunctionLiteral ["y"]
                  [expr (ast.InfixExpression (var "x") "+" (var "y"))])]);
    ast.LetStatement "add5" (ast.CallExpression (var "adder") [int 5]) ].

Definition adder_program (n : Z) : ast.Node :=
  ast.Program (adder_defs ++ [expr (ast.CallExpression (var "add5") [int n])]).

End example.

(** * Properties of the evaluator *)

Import object evaluator example.
Local Open Scope go_scope.

(** ** Vocabulary of the statements *)

(** The state after one allocation. *)
Definition bump (st : State) : State :=
  mkState (stores st) (S (next_ptr st)) (ranges st).

(** [!!5] *)
Definition bang_bang_five : ast.Expression :=
  ast.PrefixExpression "!" (ast.PrefixExpression "!" (ast.IntegerLiteral 5)).

(** [[1, 2, 3]] *)
Definition one_two_three : ast.Expression :=
  ast.ArrayLiteral [int 1; int 2; int 3].

(** [{"a": 1}] *)
Definition hash_a_1 : ast.Expression :=
  ast.HashLiteral [(ast.StringLiteral "a", int 1)].


(** The store addresses of the chain of [env], innermost first. *)
Fixpoint scopes (env : Environment) : list nat :=
  match env with
  | Env a outer =>
      a :: match outer with
           | Some o => scopes o
           | None => []
           end
  end.

(** [o1] is [o2] unless the fuel ran out. *)
Definition refines {A} (o1 o2 : Outcome A) : Prop :=
  o1 = OutOfFuel \/ o1 = o2.

(** Two hosts that differ at most in what their builtins do with an
    argument list that contains an Error. *)
Record hosts_agree (h1 h2 : Host) : Prop := mk_hosts_agree {
  agree_type_name : type_name h1 = type_name h2;
  agree_string_hash : string_hash h1 = string_hash h2;
  agree_builtins : builtins h1 = builtins h2;
  agree_range_order : range_order h1 = range_order h2;
  agree_builtin_Fn :
    forall name args st,
      Forall (fun arg => isError arg = false) args ->
      builtin_Fn h1 name args st = builtin_Fn h2 name args st
}.

(** The store in which each parameter is set, in order, to the argument at
    its position, starting from the store [s]. *)
Definition bound (params : list string) (args : list Object)
    (s : gmap string Object) : gmap string Object :=
  foldl (fun s pa => <[pa.1 := pa.2]> s) s (zip params args).

(** [fn(x, y) { x }(1)] *)
Definition call_too_few : ast.Expression :=
  ast.CallExpression (ast.FunctionLiteral ["x"; "y"] [expr (var "x")])
    [int 1].

(** [fn(x) { x }(1, 2)] *)
Definition call_too_many : ast.Expression :=
  ast.CallExpression (ast.FunctionLiteral ["x"] [expr (var "x")])
    [int 1; int 2].

(** The value an evaluation returns, if it returns. *)
Definition value_of {A} (o : Outcome A) : option A :=
  match o with
  | Done a _ => Some a
  | _ => None
  end.

(** [let x = 1; let f = fn() { x }; let g = fn(x) { f() }; g(2)]:
    [f] is called from a scope in which [x] is 2. *)
Definition lexical_scope_program : ast.Node :=
  ast.Program
    [ ast.LetStatement "x" (int 1);
      ast.LetStatement "f" (ast.FunctionLiteral [] [expr (var "x")]);
      ast.LetStatement "g"
        (ast.FunctionLiteral ["x"] [expr (ast.CallExpression (var "f") [])]);
      expr (ast.CallExpression (var "g") [int 2]) ].

(** [let f = fn() { y }; let y = 3; f()]: [y] is bound after [f] has
    captured the global environment. *)
Definition late_binding_program : ast.Node :=
  ast.Program
    [ ast.LetStatement "f" (ast.FunctionLiteral [] [expr (var "y")]);
      ast.LetStatement "y" (int 3);
      expr (ast.CallExpression (var "f") []) ].

(** [passes ev env result st stmts result' st']: the statements [stmts],
    evaluated one after the other from state [st], all return and none
    returns a ReturnValue or an Error; [result'] is the result of the last
    one ([result] if there is none) and [st'] the final state. *)
Inductive passes (ev : ast.Node -> Environment -> M Object)
    (env : Environment)
  : Object -> State -> list ast.Statement -> Object -> State -> Prop :=
| passes_nil result st : passes ev env result st [] result st
| passes_cons result st statement rest r st1 result' st' :
    ev (ast.Stmt statement) env st = Done r st1 ->
    is_signal r = false ->
    passes ev env r st1 rest result' st' ->
    passes ev env result st (statement :: rest) result' st'.



(** [let a = 1; return a; 3], as a statement list. *)
Definition let_return_more : list ast.Statement :=
  [ast.LetStatement "a" (int 1)]
    ++ ast.ReturnStatement (var "a") :: [expr (int 3)].

(** [evaluates ev env st exps values st']: the expressions [exps],
    evaluated one after the other from state [st], return the values
    [values], none of which is an Error, and leave the state [st']. *)
Inductive evaluates (ev : ast.Node -> Environment -> M Object)
    (env : Environment)
  : State -> list ast.Expression -> list Object -> State -> Prop :=
| evaluates_nil st : evaluates ev env st [] [] st
| evaluates_cons st exp rest value st1 values st' :
    ev (ast.Expr exp) env st = Done value st1 ->
    isError value = false ->
    evaluates ev env st1 rest values st' ->
    evaluates ev env st (exp :: rest) (value :: values) st'.

(** [fn(){}()] *)
Definition empty_call : ast.Expression :=
  ast.CallExpression (ast.FunctionLiteral [] []) [].

(** [[1, fn(){}(), 3]] *)
Definition array_with_empty_call : ast.Expression :=
  ast.ArrayLiteral [int 1; empty_call; int 3].

(** [5()] *)
Definition call_of_five : ast.Expression := ast.CallExpression (int 5) [].

(** [5 + true] *)
Definition five_plus_true : ast.Expression :=
  ast.InfixExpression (int 5) "+" (ast.Boolean true).




(** No binding of any store is an Error. *)
Definition stores_error_free (st : State) : Prop :=
  Forall (map_Forall (fun (_ : string) value => isError value = false))
    (stores st).

(** [m], run in a state whose stores bind no Error, leaves such a state
    and returns a value that satisfies [Q]. *)
Definition keeps {A} (m : M A) (Q : A -> Prop) : Prop :=
  forall st a st',
    stores_error_free st -> m st = Done a st' ->
    stores_error_free st' /\ Q a.

(** [m] does not write to any store. *)
Definition reads_only {A} (m : M A) : Prop :=
  forall st a st', m st = Done a st' -> stores st' = stores st.

(** [if (true) { return 5 }] *)
Definition if_true_return_5 : ast.Expression :=
  ast.IfExpression (ast.Boolean true) [ast.ReturnStatement (int 5)] None.

(** [let x = if (true) { return 5 };] *)
Definition let_of_return : ast.Node :=
  ast.Stmt (ast.LetStatement "x" if_true_return_5).

(** ** Vocabulary of the further properties *)

(** [f] applied to the value an evaluation returns. *)
Definition map_outcome {A B} (f : A -> B) (o : Outcome A) : Outcome B :=
  match o with
  | Done a st => Done (f a) st
  | Panic p => Panic p
  | OutOfFuel => OutOfFuel
  end.

(** Every store of the chain of [env] is allocated in [st]. *)
Definition allocated (env : Environment) (st : State) : Prop :=
  forall a, a ∈ scopes env -> (a < length (stores st))%nat.

(** [z] is a value of Go's [int64]. *)
Definition is_int64 (z : Z) : Prop := - 2 ^ 63 <= z < 2 ^ 63.

(** [st'] extends [st]: every pointer, range number and store address
    given out in [st] is given out in [st'], and every name a store binds
    in [st] is bound in that store in [st']. *)
Definition extends (st st' : State) : Prop :=
  (next_ptr st <= next_ptr st')%nat /\
  (ranges st <= ranges st')%nat /\
  (length (stores st) <= length (stores st'))%nat /\
  forall a key,
    is_Some (store_at (stores st) a !! key) ->
    is_Some (store_at (stores st') a !! key).

(** [m] only extends the state. *)
Definition grows {A} (m : M A) : Prop :=
  forall st a st', m st = Done a st' -> extends st st'.

(** [[1] == [1]] *)
Definition array_equals_array : ast.Expression :=
  ast.InfixExpression (ast.ArrayLiteral [int 1]) "=="
    (ast.ArrayLiteral [int 1]).

(** The syntax of the earlier revision: no string, array or hash literal
    and no index expression, at any depth. *)
Fixpoint base_expression (e : ast.Expression) : bool :=
  match e with
  | ast.Identifier _ | ast.IntegerLiteral _ | ast.Boolean _ => true
  | ast.StringLiteral _ | ast.ArrayLiteral _ | ast.IndexExpression _ _
  | ast.HashLiteral _ => false
  | ast.PrefixExpression _ Right => base_expression Right
  | ast.InfixExpression Left _ Right =>
      base_expression Left && base_expression Right
  | ast.IfExpression Condition Consequence Alternative =>
      base_expression Condition && forallb base_statement Consequence
      && match Alternative with
         | Some statements => forallb base_statement statements
         | None => true
         end
  | ast.FunctionLiteral _ Body => forallb base_statement Body
  | ast.CallExpression Function_ Arguments =>
      base_expression Function_ && forallb base_expression Arguments
  end
with base_statement (s : ast.Statement) : bool :=
  match s with
  | ast.LetStatement _ Value => base_expression Value
  | ast.ReturnStatement Value => base_expression Value
  | ast.ExpressionStatement e => base_expression e
  end.

Definition base_node (node : ast.Node) : bool :=
  match node with
  | ast.Program statements => forallb base_statement statements
  | ast.BlockStatement statements => forallb base_statement statements
  | ast.Stmt s => base_statement s
  | ast.Expr e => base_expression e
  end.

(** The values of the earlier revision: no String and no Builtin, also
    inside a ReturnValue, and Functions whose bodies are in its syntax. *)
Fixpoint base_object (o : Object) : bool :=
  match o with
  | String _ _ | Builtin _ => false
  | Function _ _ body _ => forallb base_statement body
  | ReturnValue _ value => base_object value
  | _ => true
  end.

(** Every binding of every store is a value of the earlier revision. *)
Definition base_stores (st : State) : Prop :=
  Forall (map_Forall (fun (_ : string) value => base_object value = true))
    (stores st).

(** The two computations return the same in every state of the earlier
    revision, and what they return satisfies [Q] and leaves such a
    state. *)
Definition agree_on {A} (m_base m : M A) (Q : A -> Prop) : Prop :=
  forall st,
    base_stores st ->
    m_base st = m st /\
    forall a st', m st = Done a st' -> Q a /\ base_stores st'.

(** [let twice = fn(f, x) { f(f(x)) }; twice(fn(n) { n * 2 }, 5)] *)
Definition twice_program : ast.Node :=
  ast.Program
    [ ast.LetStatement "twice"
        (ast.FunctionLiteral ["f"; "x"]
           [expr (ast.CallExpression (var "f")
                    [ast.CallExpression (var "f") [var "x"]])]);
      expr (ast.CallExpression (var "twice")
              [ast.FunctionLiteral ["n"]
                 [expr (ast.InfixExpression (var "n") "*" (int 2))];
               int 5]) ].

(** The example host with an empty registry. *)
Definition bare_host : Host :=
  mkHost kind_name fnv64a ∅ (fun _ _ => newError "no builtins") source_order
    (fun _ l => Permutation_refl l).

(** Every value [m] returns is a value of the earlier revision. *)
Definition returns_base (m : M Object) : Prop :=
  forall st a st', m st = Done a st' -> base_object a = true.

(** ** Basic facts *)

Lemma Eval_S host fuel node env :
  Eval host (S fuel) node env = Eval_node host (Eval host fuel) node env.
Proof. reflexivity. Qed.

Lemma typeOf_Some o t st : Type_ o = Some t -> typeOf o st = Done t st.
Proof. unfold typeOf. by intros ->. Qed.

Lemma isTruthy_false obj : isTruthy obj = false <-> obj = NULL \/ obj = FALSE.
Proof.
  destruct obj as [| | [] | | | | | | | |]; cbn; split;
    try discriminate; try tauto; intros [H | H]; discriminate H.
Qed.

Lemma evalBang_isTruthy right :
  evalBangOperatorExpression right = if isTruthy right then FALSE else TRUE.
Proof. by destruct right as [| | [] | | | | | | | |]. Qed.

(** ** Truthiness and [!] *)

(** C9: [NULL] and [FALSE] are the only falsy values (Integer 0, every
    non-Boolean kind and even the nil interface are truthy); the prefix
    operator [!] never yields an Error and never panics, whatever the
    operand: it returns the singleton [TRUE] for a falsy operand and the
    singleton [FALSE] for a truthy one, without touching the state; and
    [!!5] evaluates to the singleton [TRUE]. *)
Theorem truthiness_and_bang :
  (forall obj, isTruthy obj = false <-> obj = NULL \/ obj = FALSE) /\
  (forall p, isTruthy (Integer p 0) = true) /\
  (forall obj, Type_ obj <> Some BOOLEAN_OBJ -> Type_ obj <> Some NULL_OBJ ->
     isTruthy obj = true) /\
  (forall right,
     evalBangOperatorExpression right
     = if isTruthy right then FALSE else TRUE) /\
  (forall host right st,
     evalPrefixExpression host "!" right st
     = Done (if isTruthy right then FALSE else TRUE) st) /\
  (forall host fuel env st,
     Eval host (3 + fuel) bang_bang_five env st = Done TRUE (bump st)).
Proof.
  split; [exact isTruthy_false |].
  split; [reflexivity |].
  split.
  { intros obj Hb Hn. by destruct obj. }
  split; [exact evalBang_isTruthy |].
  split.
  { intros host right st. unfold evalPrefixExpression.
    rewrite decide_True by reflexivity.
    by rewrite evalBang_isTruthy. }
  reflexivity.
Qed.

(** The third part of [truthiness_and_bang] at a Function value. *)
Lemma truthiness_and_bang_witness :
  isTruthy (Function 0 [] [] (Env 0 None)) = true.
Proof.
  apply (proj1 (proj2 (proj2 truthiness_and_bang))); discriminate.
Defined.

(** ** Index expressions *)


Lemma evalIndexExpression_array host p elements q idx st :
  evalIndexExpression host (Array p elements) (Integer q idx) st
  = evalArrayIndexExpression (Array p elements) (Integer q idx) st.
Proof. reflexivity. Qed.




(** The indexing examples: [{"a": 1}["a"]], [{"a": 1}["b"]],
    [[1, 2, 3][5]] and [[1, 2, 3][-1]]. *)
Example index_examples :
  value_of (Eval example_host 4
              (ast.IndexExpression hash_a_1 (ast.StringLiteral "a")) global
              initial_state) = Some (Integer 2 1) /\
  value_of (Eval example_host 4
              (ast.IndexExpression hash_a_1 (ast.StringLiteral "b")) global
              initial_state) = Some NULL /\
  value_of (Eval example_host 4
              (ast.IndexExpression one_two_three (int 5)) global
              initial_state) = Some NULL /\
  value_of (Eval example_host 4
              (ast.IndexExpression one_two_three
                 (ast.PrefixExpression "-" (int 1))) global
              initial_state) = Some NULL.
Proof. repeat split; vm_compute; reflexivity. Qed.

(** ** Infix expressions *)

Lemma both_of_type_Some t left right lt rt st :
  Type_ left = Some lt -> Type_ right = Some rt ->
  both_of_type t left right st
  = Done (bool_decide (lt = t /\ rt = t)) st.
Proof.
  intros Hl Hr. unfold both_of_type, bind.
  rewrite (typeOf_Some _ _ _ Hl). destruct (decide (lt = t)) as [-> | Hne].
  - rewrite (typeOf_Some _ _ _ Hr). cbn. f_equal.
    apply bool_decide_ext. tauto.
  - cbn. f_equal. symmetry. apply bool_decide_eq_false. tauto.
Qed.

Lemma evalInfixExpression_integers host operator p a q b st :
  evalInfixExpression host operator (Integer p a) (Integer q b) st
  = evalIntegerInfixExpression host operator (Integer p a) (Integer q b) st.
Proof. reflexivity. Qed.

Lemma evalInfixExpression_strings host operator p a q b st :
  evalInfixExpression host operator (String p a) (String q b) st
  = evalStringInfixExpression host operator (String p a) (String q b) st.
Proof. reflexivity. Qed.

(** Neither both Integers nor both Strings: the switch reaches its third
    case. *)
Lemma evalInfixExpression_others host operator left right lt rt st :
  Type_ left = Some lt -> Type_ right = Some rt ->
  ~ (lt = INTEGER_OBJ /\ rt = INTEGER_OBJ) ->
  ~ (lt = STRING_OBJ /\ rt = STRING_OBJ) ->
  evalInfixExpression host operator left right st
  = (if decide (operator = "==") then
       ret (nativeBoolToBooleanObject (same_object left right))
     else if decide (operator = "!=") then
       ret (nativeBoolToBooleanObject (negb (same_object left right)))
     else if decide (lt <> rt) then
       newError (infix_message host "type mismatch: " lt operator rt)
     else newError (infix_message host "unknown operator: " lt operator rt))
      st.
Proof.
  intros Hl Hr Hi Hs. unfold evalInfixExpression, bind.
  rewrite (both_of_type_Some _ _ _ _ _ _ Hl Hr).
  rewrite bool_decide_eq_false_2 by done.
  rewrite (both_of_type_Some _ _ _ _ _ _ Hl Hr).
  rewrite bool_decide_eq_false_2 by done.
  destruct (decide (operator = "==")); [done |].
  destruct (decide (operator = "!=")); [done |].
  rewrite (typeOf_Some _ _ _ Hl), (typeOf_Some _ _ _ Hr).
  by repeat case_decide.
Qed.




(** ** Identifiers *)

Lemma Environment_chain_ind (P : Environment -> Prop) :
  (forall a, P (Env a None)) ->
  (forall a o, P o -> P (Env a (Some o))) ->
  forall env, P env.
Proof.
  intros Hlast Hcons. fix IH 1.
  intros [a [o |]]; [apply Hcons, IH | apply Hlast].
Qed.

(** [Get] returns the binding of the innermost store that has one. *)
Lemma Get_in_nearest h name env inner a outer value :
  scopes env = inner ++ a :: outer ->
  (forall b, b ∈ inner -> store_at h b !! name = None) ->
  store_at h a !! name = Some value ->
  Get_in h env name = (value, true).
Proof.
  revert inner. induction env as [b | b o IH] using Environment_chain_ind;
    intros inner Hsc Hin Ha; cbn in Hsc |- *.
  - destruct inner as [| c [| ? ?]]; simplify_eq/=. by rewrite Ha.
  - destruct inner as [| c inner]; simplify_eq/=.
    + by rewrite Ha.
    + rewrite (Hin c) by set_solver.
      apply (IH inner); [done | | done].
      intros b' Hb'. apply Hin. set_solver.
Qed.

Lemma Get_in_absent h name env :
  (forall b, b ∈ scopes env -> store_at h b !! name = None) ->
  Get_in h env name = (nil, false).
Proof.
  induction env as [b | b o IH] using Environment_chain_ind;
    intros Hin; cbn in Hin |- *.
  - by rewrite (Hin b) by set_solver.
  - rewrite (Hin b) by set_solver. apply IH.
    intros b' Hb'. apply Hin. set_solver.
Qed.

(** C8: an identifier evaluates to the binding of the innermost scope of
    the chain that binds the name (whether or not a builtin has that name);
    only when no scope of the chain binds it is the registry consulted,
    giving the Builtin of that name; a name bound nowhere is the Error
    "identifier not found: <name>".  The earlier revision of the evaluator
    has no registry and behaves as the later one with an empty registry. *)
Theorem identifier_resolution_order host :
  (forall name env st inner a outer value,
     scopes env = inner ++ a :: outer ->
     (forall b, b ∈ inner -> store_at (stores st) b !! name = None) ->
     store_at (stores st) a !! name = Some value ->
     evalIdentifier host name env st = Done value st) /\
  (forall name env st,
     (forall b, b ∈ scopes env -> store_at (stores st) b !! name = None) ->
     name ∈ builtins host ->
     evalIdentifier host name env st = Done (Builtin name) st) /\
  (forall name env st,
     (forall b, b ∈ scopes env -> store_at (stores st) b !! name = None) ->
     name ∉ builtins host ->
     evalIdentifier host name env st
     = Done (Error (next_ptr st) ("identifier not found: " +:+ name))
         (bump st)) /\
  (forall name env st,
     name ∉ builtins host ->
     evaluator_base.evalIdentifier name env st
     = evalIdentifier host name env st) /\
  (forall fuel name env st,
     Eval host (S fuel) (ast.Identifier name) env st
     = evalIdentifier host name env st).
Proof.
  repeat split.
  - intros name env st inner a outer value Hsc Hin Ha.
    unfold evalIdentifier, bind, Get.
    by rewrite (Get_in_nearest _ _ _ _ _ _ _ Hsc Hin Ha).
  - intros name env st Hin Hb.
    unfold evalIdentifier, bind, Get. rewrite (Get_in_absent _ _ _ Hin).
    by rewrite decide_True.
  - intros name env st Hin Hb.
    unfold evalIdentifier, bind, Get. rewrite (Get_in_absent _ _ _ Hin).
    by rewrite decide_False.
  - intros name env st Hb.
    unfold evalIdentifier, evaluator_base.evalIdentifier, bind, Get.
    destruct (Get_in (stores st) env name) as [value [|]]; cbn; [done |].
    by rewrite decide_False.
Qed.

(** [identifier_resolution_order] on a two-scope chain: [len] is bound in
    the outer scope 0 and not in the inner scope 1, so the identifier is
    the outer binding, not the builtin [len]. *)
Lemma identifier_resolution_order_witness :
  evalIdentifier example_host "len" (Env 1 (Some (Env 0 None)))
    (mkState [{["len" := TRUE]}; ∅] 0 0)
  = Done TRUE (mkState [{["len" := TRUE]}; ∅] 0 0).
Proof.
  apply (proj1 (identifier_resolution_order example_host)
           "len" (Env 1 (Some (Env 0 None))) _ [1%nat] 0%nat []).
  - reflexivity.
  - intros b Hb. apply list_elem_of_singleton in Hb as ->. reflexivity.
  - reflexivity.
Defined.

(** ** Fuel and hosts

    More fuel never changes an outcome other than [OutOfFuel], and the
    evaluator calls a builtin only with arguments that are not Errors. *)

Lemma refines_refl {A} (o : Outcome A) : refines o o.
Proof. by right. Qed.

Lemma refines_bind {A B} (m1 m2 : M A) (k1 k2 : A -> M B) st :
  refines (m1 st) (m2 st) ->
  (forall a st', m2 st = Done a st' -> refines (k1 a st') (k2 a st')) ->
  refines (bind m1 k1 st) (bind m2 k2 st).
Proof.
  unfold bind. intros [-> | ->] Hk; [by left |].
  destruct (m2 st) as [a st' | |]; [by apply Hk | by right | by right].
Qed.

Lemma refines_antisym {A} (o1 o2 : Outcome A) :
  refines o1 o2 -> refines o2 o1 -> o1 = o2.
Proof. intros [H1 | H1] [H2 | H2]; congruence. Qed.

(** What [evalExpressions] returns: a single Error, or values none of
    which is an Error. *)
Lemma evalExpressions_from_result ev exps :
  forall result env st args st',
    Forall (fun arg => isError arg = false) result ->
    evalExpressions_from ev result exps env st = Done args st' ->
    (exists err, args = [err] /\ isError err = true)
    \/ Forall (fun arg => isError arg = false) args.
Proof.
  induction exps as [| exp rest IH]; intros result env st args st' Hres Hev;
    cbn in Hev.
  - right. by injection Hev as <- _.
  - unfold bind in Hev.
    destruct (ev (ast.Expr exp) env st) as [eval st1 | |]; try discriminate.
    destruct (isError eval) eqn:Herr.
    + left. exists eval. by injection Hev as <- _.
    + apply (IH (result ++ [eval]) env st1 args st'); [| done].
      apply Forall_app. split; [done | by constructor].
Qed.

Lemma evalExpressions_result ev exps env st args st' :
  evalExpressions ev exps env st = Done args st' ->
  (exists err, args = [err] /\ isError err = true)
  \/ Forall (fun arg => isError arg = false) args.
Proof. apply evalExpressions_from_result. constructor. Qed.

Section Simulation.

Context (tn : ObjectType -> string) (sh : string -> Z) (bs : gset string).
Context (ro : nat -> list (ast.Expression * ast.Expression) ->
              list (ast.Expression * ast.Expression)).
Context (Fn1 Fn2 : string -> list Object -> M Object).
Context (perm1 perm2 : forall n l, ro n l ≡ₚ l).

Let h1 : Host := mkHost tn sh bs Fn1 ro perm1.
Let h2 : Host := mkHost tn sh bs Fn2 ro perm2.

Hypothesis Fn_agree :
  forall name args st,
    Forall (fun arg => isError arg = false) args ->
    Fn1 name args st = Fn2 name args st.

Context (ev1 ev2 : ast.Node -> Environment -> M Object).

Hypothesis ev_refines :
  forall node env st, refines (ev1 node env st) (ev2 node env st).

Lemma evalProgram_from_sim stmts :
  forall result env st,
    refines (evalProgram_from ev1 result stmts env st)
      (evalProgram_from ev2 result stmts env st).
Proof.
  induction stmts as [| statement rest IH]; intros result env st; cbn.
  - apply refines_refl.
  - apply refines_bind; [apply ev_refines |].
    intros r st' _. destruct r; first [apply IH | apply refines_refl].
Qed.

Lemma evalStatements_from_sim stmts :
  forall result env st,
    refines (evalStatements_from ev1 result stmts env st)
      (evalStatements_from ev2 result stmts env st).
Proof.
  induction stmts as [| statement rest IH]; intros result env st; cbn.
  - apply refines_refl.
  - apply refines_bind; [apply ev_refines |].
    intros r st' _. destruct (is_signal r); [apply refines_refl | apply IH].
Qed.

Lemma evalExpressions_from_sim exps :
  forall result env st,
    refines (evalExpressions_from ev1 result exps env st)
      (evalExpressions_from ev2 result exps env st).
Proof.
  induction exps as [| exp rest IH]; intros result env st; cbn.
  - apply refines_refl.
  - apply refines_bind; [apply ev_refines |].
    intros r st' _. destruct (isError r); [apply refines_refl | apply IH].
Qed.

Lemma evalIfExpression_sim Condition Consequence Alternative env st :
  refines (evalIfExpression ev1 Condition Consequence Alternative env st)
    (evalIfExpression ev2 Condition Consequence Alternative env st).
Proof.
  unfold evalIfExpression. apply refines_bind; [apply ev_refines |].
  intros condition st' _. destruct (isError condition); [apply refines_refl |].
  destruct (isTruthy condition); [apply ev_refines |].
  destruct Alternative; [apply ev_refines | apply refines_refl].
Qed.

Lemma evalHashLiteral_from_sim todo :
  forall ptr pairs env st,
    refines (evalHashLiteral_from h1 ev1 ptr pairs todo env st)
      (evalHashLiteral_from h2 ev2 ptr pairs todo env st).
Proof.
  induction todo as [| [key value] rest IH]; intros ptr pairs env st; cbn.
  - apply refines_refl.
  - apply refines_bind; [apply ev_refines |].
    intros keyObject st' _.
    destruct (isError keyObject); [apply refines_refl |].
    change (HashKey_of h1 keyObject) with (HashKey_of h2 keyObject).
    destruct (HashKey_of h2 keyObject); [| apply refines_refl].
    apply refines_bind; [apply ev_refines |].
    intros valueObject st'' _.
    destruct (isError valueObject); [apply refines_refl | apply IH].
Qed.

Lemma applyFunction_sim fn args st :
  Forall (fun arg => isError arg = false) args ->
  refines (applyFunction h1 ev1 fn args st) (applyFunction h2 ev2 fn args st).
Proof.
  intros Hargs. destruct fn; cbn; try apply refines_refl.
  - apply refines_bind; [apply refines_refl |].
    intros extendedEnv st' _.
    apply refines_bind; [apply ev_refines |].
    intros evaluated st'' _. apply refines_refl.
  - rewrite (Fn_agree _ _ _ Hargs). apply refines_refl.
Qed.

Lemma Eval_node_sim node env st :
  refines (Eval_node h1 ev1 node env st) (Eval_node h2 ev2 node env st).
Proof.
  destruct node as [stmts | stmts | [name value | e | e] | e].
  - apply evalProgram_from_sim.
  - apply evalStatements_from_sim.
  - cbn. apply refines_bind; [apply ev_refines |].
    intros evaluated st' _. apply refines_refl.
  - cbn. apply refines_bind; [apply ev_refines |].
    intros evaluated st' _. apply refines_refl.
  - apply ev_refines.
  - destruct e; cbn; try apply refines_refl.
    + apply refines_bind; [apply ev_refines |].
      intros r st' _. apply refines_refl.
    + apply refines_bind; [apply ev_refines |].
      intros l st' _. destruct (isError l); [apply refines_refl |].
      apply refines_bind; [apply ev_refines |].
      intros r st'' _. apply refines_refl.
    + apply evalIfExpression_sim.
    + apply refines_bind; [apply ev_refines |].
      intros function st' _.
      destruct (isError function); [apply refines_refl |].
      apply refines_bind; [apply evalExpressions_from_sim |].
      intros args st'' Hargs. apply evalExpressions_result in Hargs.
      destruct args as [| arg [| arg' args]].
      * by apply applyFunction_sim.
      * destruct (isError arg) eqn:Harg; [apply refines_refl |].
        apply applyFunction_sim. by constructor.
      * apply applyFunction_sim.
        by destruct Hargs as [(err & [=] & _) | Hargs].
    + apply refines_bind; [apply evalExpressions_from_sim |].
      intros elements st' _. apply refines_refl.
    + apply refines_bind; [apply ev_refines |].
      intros l st' _. destruct (isError l); [apply refines_refl |].
      apply refines_bind; [apply ev_refines |].
      intros r st'' _. apply refines_refl.
    + apply evalHashLiteral_from_sim.
Qed.

End Simulation.

Lemma Eval_sim h1 h2 :
  hosts_agree h1 h2 ->
  forall fuel node env st,
    refines (Eval h1 fuel node env st) (Eval h2 fuel node env st).
Proof.
  intros [Htn Hsh Hbs Hro HFn].
  destruct h1 as [tn sh bs Fn1 ro perm1], h2 as [tn' sh' bs' Fn2 ro' perm2].
  cbn in *. subst tn' sh' bs' ro'.
  induction fuel as [| fuel IH]; intros node env st; [by left |].
  rewrite !Eval_S. by apply Eval_node_sim.
Qed.

Lemma hosts_agree_sym h1 h2 : hosts_agree h1 h2 -> hosts_agree h2 h1.
Proof.
  intros [Htn Hsh Hbs Hro HFn]. split; try done.
  intros name args st Hargs. symmetry. by apply HFn.
Qed.

(** Hosts that agree on Error-free argument lists give the same runs. *)
Lemma Eval_hosts_agree h1 h2 fuel node env st :
  hosts_agree h1 h2 ->
  Eval h1 fuel node env st = Eval h2 fuel node env st.
Proof.
  intros Hagree.
  apply refines_antisym; apply Eval_sim; [done | by apply hosts_agree_sym].
Qed.

Lemma Eval_fuel_S host fuel :
  forall node env st,
    refines (Eval host fuel node env st) (Eval host (S fuel) node env st).
Proof.
  destruct host as [tn sh bs Fn ro perm].
  induction fuel as [| fuel IH]; intros node env st; [by left |].
  rewrite (Eval_S _ (S fuel)), (Eval_S _ fuel).
  by apply Eval_node_sim.
Qed.

(** An outcome other than [OutOfFuel] is the outcome at every larger
    fuel. *)
Lemma Eval_fuel_mono host fuel fuel' node env st :
  (fuel <= fuel')%nat ->
  Eval host fuel node env st <> OutOfFuel ->
  Eval host fuel' node env st = Eval host fuel node env st.
Proof.
  intros Hle Hfuel. induction Hle as [| fuel' Hle IH]; [done |].
  destruct (Eval_fuel_S host fuel' node env st) as [Hout | Heq];
    congruence.
Qed.

Lemma Eval_fuel_add host fuel extra node env st o :
  Eval host fuel node env st = o -> o <> OutOfFuel ->
  Eval host (fuel + extra) node env st = o.
Proof.
  intros <- Hne. apply Eval_fuel_mono; [lia | done].
Qed.

(** ** Binding parameters *)

Lemma Set_new_store env key value h s n r :
  store_of env = length h ->
  Set_ env key value (mkState (h ++ [s]) n r)
  = Done value (mkState (h ++ [<[key := value]> s]) n r).
Proof.
  intros Ha. unfold Set_. cbn. rewrite Ha.
  replace (length h) with (length h + 0)%nat by lia.
  by rewrite alter_app_r.
Qed.

Lemma bind_parameters_enough env params :
  forall args idx h s n r,
    store_of env = length h ->
    (idx + length params <= length args)%nat ->
    bind_parameters env params args idx (mkState (h ++ [s]) n r)
    = Done tt (mkState (h ++ [bound params (drop idx args) s]) n r).
Proof.
  induction params as [| param rest IH]; intros args idx h s n r Ha Hlen;
    cbn in Hlen |- *.
  - reflexivity.
  - destruct (lookup_lt_is_Some_2 args idx) as [arg Harg]; [lia |].
    rewrite Harg. unfold bind. rewrite Set_new_store by done.
    rewrite IH by (done || lia).
    by rewrite (drop_S _ _ _ Harg).
Qed.

Lemma bind_parameters_short env params :
  forall args idx st,
    (idx <= length args < idx + length params)%nat ->
    bind_parameters env params args idx st = Panic IndexOutOfRange.
Proof.
  induction params as [| param rest IH]; intros args idx st Hlen;
    cbn in Hlen |- *; [lia |].
  destruct (args !! idx) as [arg |] eqn:Harg; [| done].
  apply lookup_lt_Some in Harg.
  unfold bind, Set_. apply IH. lia.
Qed.

Lemma extendFunctionEnv_enough Parameters fnEnv args st :
  (length Parameters <= length args)%nat ->
  extendFunctionEnv Parameters fnEnv args st
  = Done (Env (length (stores st)) (Some fnEnv))
      (mkState (stores st ++ [bound Parameters args ∅]) (next_ptr st)
         (ranges st)).
Proof.
  intros Hlen. unfold extendFunctionEnv, NewEnclosedEnvironment. cbn.
  unfold bind at 1. cbn.
  by rewrite bind_parameters_enough.
Qed.

Lemma extendFunctionEnv_short Parameters fnEnv args st :
  (length args < length Parameters)%nat ->
  extendFunctionEnv Parameters fnEnv args st = Panic IndexOutOfRange.
Proof.
  intros Hlen. unfold extendFunctionEnv, NewEnclosedEnvironment. cbn.
  unfold bind at 1. cbn.
  rewrite bind_parameters_short; [done | lia].
Qed.

Lemma bound_take params args s :
  bound params (take (length params) args) s = bound params args s.
Proof. unfold bound. by rewrite zip_with_take_r. Qed.

(** C10: [extendFunctionEnv] never compares the two lengths.  With fewer
    arguments than parameters the binding loop indexes past the end of
    [args]: the call is a Go panic (index out of range), not an Error
    value, whatever the body.  With at least as many arguments, each
    parameter is set to the argument at its position in a fresh store
    enclosed by the function's environment, and the call behaves exactly
    as if the surplus arguments had not been passed. *)
Theorem unchecked_parameter_binding host :
  (forall Parameters fnEnv args st,
     (length args < length Parameters)%nat ->
     extendFunctionEnv Parameters fnEnv args st = Panic IndexOutOfRange) /\
  (forall ev q Parameters Body fnEnv args st,
     (length args < length Parameters)%nat ->
     applyFunction host ev (Function q Parameters Body fnEnv) args st
     = Panic IndexOutOfRange) /\
  (forall Parameters fnEnv args st,
     (length Parameters <= length args)%nat ->
     extendFunctionEnv Parameters fnEnv args st
     = Done (Env (length (stores st)) (Some fnEnv))
         (mkState (stores st ++ [bound Parameters args ∅]) (next_ptr st)
            (ranges st))) /\
  (forall ev q Parameters Body fnEnv args st,
     (length Parameters <= length args)%nat ->
     applyFunction host ev (Function q Parameters Body fnEnv) args st
     = applyFunction host ev (Function q Parameters Body fnEnv)
         (take (length Parameters) args) st) /\
  (forall fuel,
     Eval host (4 + fuel) call_too_few global initial_state
     = Panic IndexOutOfRange) /\
  (forall fuel,
     Eval host (4 + fuel) call_too_many global initial_state
     = Done (Integer 1 1) (mkState [∅; {["x" := Integer 1 1]}] 3 0)).
Proof.
  split; [exact extendFunctionEnv_short |].
  split.
  { intros ev q Parameters Body fnEnv args st Hlen. cbn. unfold bind.
    by rewrite extendFunctionEnv_short. }
  split; [exact extendFunctionEnv_enough |].
  split.
  { intros ev q Parameters Body fnEnv args st Hlen. cbn. unfold bind.
    rewrite !extendFunctionEnv_enough by (rewrite ?length_take; lia).
    by rewrite bound_take. }
  split; intros fuel;
    (apply (Eval_fuel_add host 4 fuel); [vm_compute; reflexivity | discriminate]).
Qed.

(** [unchecked_parameter_binding] on a two-parameter function applied to
    one and to three arguments. *)
Lemma unchecked_parameter_binding_witness :
  extendFunctionEnv ["x"; "y"] global [Integer 0 1] initial_state
  = Panic IndexOutOfRange /\
  extendFunctionEnv ["x"; "y"] global [Integer 0 1; Integer 1 2; Integer 2 3]
    initial_state
  = Done (Env 1 (Some global))
      (mkState [∅; bound ["x"; "y"] [Integer 0 1; Integer 1 2; Integer 2 3] ∅]
         0 0).
Proof.
  split.
  - apply (proj1 (unchecked_parameter_binding example_host)). cbn. lia.
  - apply (proj1 (proj2 (proj2 (unchecked_parameter_binding example_host)))).
    cbn. lia.
Defined.

(** ** Closures *)

Lemma Eval_fuel_ge host fuel extra node env st :
  Eval host fuel node env st <> OutOfFuel ->
  Eval host (fuel + extra) node env st = Eval host fuel node env st.
Proof. intros Hne. apply Eval_fuel_mono; [lia | done]. Qed.

Lemma Get_after_Set env key value st st' :
  (store_of env < length (stores st))%nat ->
  Set_ env key value st = Done value st' ->
  Get env key st' = Done (value, true) st'.
Proof.
  intros Hlt [= <-]. unfold Get. f_equal. destruct env as [a outer]. cbn in *.
  unfold store_at. rewrite list_lookup_alter_eq.
  destruct (lookup_lt_is_Some_2 (stores st) a Hlt) as [s ->]. cbn.
  by rewrite lookup_insert_eq.
Qed.

Lemma applyFunction_Function host ev q Parameters Body fnEnv args st :
  (length Parameters <= length args)%nat ->
  applyFunction host ev (Function q Parameters Body fnEnv) args st
  = match
      ev (ast.BlockStatement Body)
        (Env (length (stores st)) (Some fnEnv))
        (mkState (stores st ++ [bound Parameters args ∅]) (next_ptr st)
           (ranges st))
    with
    | Done evaluated st' => Done (unwrapReturnValue evaluated) st'
    | Panic p => Panic p
    | OutOfFuel => OutOfFuel
    end.
Proof.
  intros Hlen. cbn. unfold bind. by rewrite extendFunctionEnv_enough.
Qed.

(** C2: a function literal evaluates to a Function holding the parameter
    list, the body and the very environment it is evaluated in (no store
    is copied or created: a binding set through that environment later is
    read through the Function's environment); applying a Function creates
    a fresh store enclosed by the Function's environment, in which each
    parameter is set to the argument at its position, evaluates the body
    there and unwraps a ReturnValue.  The caller's environment is not an
    input of [applyFunction].  With [adder] and [add5] defined as in the
    specification, [add5(3)] is Integer 8 and [add5(7)] is Integer 12. *)
Theorem closure_semantics host :
  (forall fuel Parameters Body env st,
     Eval host (S fuel) (ast.FunctionLiteral Parameters Body) env st
     = Done (Function (next_ptr st) Parameters Body env) (bump st)) /\
  (forall env key value st st',
     (store_of env < length (stores st))%nat ->
     Set_ env key value st = Done value st' ->
     Get env key st' = Done (value, true) st') /\
  (forall ev q Parameters Body fnEnv args st,
     (length Parameters <= length args)%nat ->
     applyFunction host ev (Function q Parameters Body fnEnv) args st
     = match
         ev (ast.BlockStatement Body)
           (Env (length (stores st)) (Some fnEnv))
           (mkState (stores st ++ [bound Parameters args ∅]) (next_ptr st)
              (ranges st))
       with
       | Done evaluated st' => Done (unwrapReturnValue evaluated) st'
       | Panic p => Panic p
       | OutOfFuel => OutOfFuel
       end) /\
  (forall ev q Parameters Body fnEnv args st,
     evaluator_base.applyFunction host ev (Function q Parameters Body fnEnv)
       args st
     = applyFunction host ev (Function q Parameters Body fnEnv) args st) /\
  (forall fuel,
     value_of (Eval host (8 + fuel) (adder_program 3) global initial_state)
     = Some (Integer 4 8)) /\
  (forall fuel,
     value_of (Eval host (8 + fuel) (adder_program 7) global initial_state)
     = Some (Integer 4 12)) /\
  (forall fuel,
     value_of (Eval host (9 + fuel) lexical_scope_program global
                 initial_state)
     = Some (Integer 0 1)) /\
  (forall fuel,
     value_of (Eval host (6 + fuel) late_binding_program global
                 initial_state)
     = Some (Integer 1 3)).
Proof.
  split; [reflexivity |].
  split; [exact Get_after_Set |].
  split; [exact (applyFunction_Function host) |].
  split; [reflexivity |].
  repeat split; intros fuel;
    (rewrite Eval_fuel_ge by (vm_compute; discriminate));
    vm_compute; reflexivity.
Qed.

(** [closure_semantics] on a binding made through the global environment
    and on a one-parameter function applied to one argument. *)
Lemma closure_semantics_witness :
  Get global "y" (mkState [{["y" := Integer 0 3]}] 1 0)
  = Done (Integer 0 3, true) (mkState [{["y" := Integer 0 3]}] 1 0) /\
  applyFunction example_host (Eval example_host 3)
    (Function 0 ["x"] [expr (var "x")] global) [Integer 1 5] initial_state
  = Done (Integer 1 5) (mkState [∅; {["x" := Integer 1 5]}] 0 0).
Proof.
  split.
  - apply (proj1 (proj2 (closure_semantics example_host))
             global "y" (Integer 0 3) (mkState [∅] 1 0)).
    + cbn. lia.
    + reflexivity.
  - etransitivity.
    + apply (proj1 (proj2 (proj2 (closure_semantics example_host)))).
      cbn. lia.
    + reflexivity.
Defined.

(** ** Programs, blocks and return *)


Lemma evalStatements_from_cons ev result statement rest env st :
  evalStatements_from ev result (statement :: rest) env st
  = match ev (ast.Stmt statement) env st with
    | Done r st' =>
        if is_signal r then Done r st'
        else evalStatements_from ev r rest env st'
    | Panic p => Panic p
    | OutOfFuel => OutOfFuel
    end.
Proof.
  cbn. unfold bind. destruct (ev statement env st); try done.
  by destruct (is_signal a).
Qed.







(** ** Left-to-right evaluation and the first Error *)

Lemma evalExpressions_from_cons ev result exp rest env st :
  evalExpressions_from ev result (exp :: rest) env st
  = match ev (ast.Expr exp) env st with
    | Done eval st' =>
        if isError eval then Done [eval] st'
        else evalExpressions_from ev (result ++ [eval]) rest env st'
    | Panic p => Panic p
    | OutOfFuel => OutOfFuel
    end.
Proof.
  cbn. unfold bind. destruct (ev exp env st); try done.
  by destruct (isError a).
Qed.

Lemma evalExpressions_from_evaluates ev env exps st values st' :
  evaluates ev env st exps values st' ->
  forall result rest,
    evalExpressions_from ev result (exps ++ rest) env st
    = evalExpressions_from ev (result ++ values) rest env st'.
Proof.
  induction 1 as [| st exp exps value st1 values st' Hev Hval Hrest IH];
    intros result rest.
  - by rewrite app_nil_r.
  - rewrite <- app_comm_cons, evalExpressions_from_cons, Hev, Hval, IH.
    by rewrite <- app_assoc.
Qed.

Lemma evalExpressions_first_error ev env pre e post st values st1 err st2 :
  evaluates ev env st pre values st1 ->
  ev (ast.Expr e) env st1 = Done err st2 ->
  isError err = true ->
  evalExpressions ev (pre ++ e :: post) env st = Done [err] st2.
Proof.
  intros Hpre He Herr. unfold evalExpressions.
  rewrite (evalExpressions_from_evaluates _ _ _ _ _ _ Hpre).
  by rewrite evalExpressions_from_cons, He, Herr.
Qed.

Lemma Eval_ArrayLiteral_first_error host fuel env pre e post st values st1
    err st2 :
  evaluates (Eval host fuel) env st pre values st1 ->
  Eval host fuel (ast.Expr e) env st1 = Done err st2 ->
  isError err = true ->
  Eval host (S fuel) (ast.ArrayLiteral (pre ++ e :: post)) env st
  = Done err st2.
Proof.
  intros Hpre He Herr. rewrite Eval_S. cbn [Eval_node]. unfold bind.
  rewrite (evalExpressions_first_error _ _ _ _ _ _ _ _ _ _ Hpre He Herr).
  by rewrite Herr.
Qed.

(** C6, with other examples: the arguments of a call and the elements of an
    array literal are evaluated in order, each in the state the previous
    one left; at the first one that evaluates to an Error the evaluation
    stops and that Error is the result of the whole expression, whatever
    expressions follow; an infix expression whose left operand evaluates
    to an Error returns it whatever the right operand is.  So
    [[1, 5(), e]] is the Error "not a function: <Integer>" and
    [[1, 5 + true, e]] the Error "type mismatch: <Integer> + <Boolean>"
    for every expression [e].  But [[1, fn(){}(), 3]] is no Error: the
    call of the empty function returns nil and all three elements are
    evaluated. *)
Theorem first_error_short_circuit host :
  (forall ev env exps st values st',
     evaluates ev env st exps values st' ->
     evalExpressions ev exps env st = Done values st') /\
  (forall ev env pre e post st values st1 err st2,
     evaluates ev env st pre values st1 ->
     ev (ast.Expr e) env st1 = Done err st2 ->
     isError err = true ->
     evalExpressions ev (pre ++ e :: post) env st = Done [err] st2) /\
  (forall fuel env pre e post st values st1 err st2,
     evaluates (Eval host fuel) env st pre values st1 ->
     Eval host fuel (ast.Expr e) env st1 = Done err st2 ->
     isError err = true ->
     Eval host (S fuel) (ast.ArrayLiteral (pre ++ e :: post)) env st
     = Done err st2) /\
  (forall fuel env callee pre e post st function st0 values st1 err st2,
     Eval host fuel (ast.Expr callee) env st = Done function st0 ->
     isError function = false ->
     evaluates (Eval host fuel) env st0 pre values st1 ->
     Eval host fuel (ast.Expr e) env st1 = Done err st2 ->
     isError err = true ->
     Eval host (S fuel) (ast.CallExpression callee (pre ++ e :: post)) env st
     = Done err st2) /\
  (forall fuel env Left Operator Right st err st1,
     Eval host fuel (ast.Expr Left) env st = Done err st1 ->
     isError err = true ->
     Eval host (S fuel) (ast.InfixExpression Left Operator Right) env st
     = Done err st1) /\
  (forall fuel e env st,
     Eval host (3 + fuel) (ast.ArrayLiteral [int 1; call_of_five; e]) env st
     = Done (Error (S (S (next_ptr st)))
               ("not a function: " +:+ type_name host INTEGER_OBJ))
         (bump (bump (bump st)))) /\
  (forall fuel e env st,
     Eval host (3 + fuel) (ast.ArrayLiteral [int 1; five_plus_true; e]) env
       st
     = Done (Error (S (S (next_ptr st)))
               ("type mismatch: " +:+ type_name host INTEGER_OBJ +:+ " "
                  +:+ "+" +:+ " " +:+ type_name host BOOLEAN_OBJ))
         (bump (bump (bump st)))) /\
  (forall fuel,
     Eval host (4 + fuel) array_with_empty_call global initial_state
     = Done (Array 3 [Integer 0 1; nil; Integer 2 3])
         (mkState [∅; ∅] 4 0)).
Proof.
  split.
  { intros ev env exps st values st' Hev. unfold evalExpressions.
    rewrite <- (app_nil_r exps).
    by rewrite (evalExpressions_from_evaluates _ _ _ _ _ _ Hev). }
  split; [exact evalExpressions_first_error |].
  split; [exact (Eval_ArrayLiteral_first_error host) |].
  split.
  { intros fuel env callee pre e post st function st0 values st1 err st2
      Hfn Hfnerr Hpre He Herr.
    rewrite Eval_S. cbn [Eval_node]. unfold bind. rewrite Hfn, Hfnerr.
    rewrite (evalExpressions_first_error _ _ _ _ _ _ _ _ _ _ Hpre He Herr).
    by rewrite Herr. }
  split.
  { intros fuel env Left Operator Right st err st1 He Herr.
    rewrite Eval_S. cbn [Eval_node]. unfold bind. by rewrite He, Herr. }
  split.
  { intros fuel e env st.
    apply (Eval_ArrayLiteral_first_error host (2 + fuel) env [int 1]
             call_of_five [e] st [Integer (next_ptr st) 1] (bump st));
      [| reflexivity | reflexivity].
    eapply evaluates_cons; [reflexivity | reflexivity | apply evaluates_nil]. }
  split.
  { intros fuel e env st.
    apply (Eval_ArrayLiteral_first_error host (2 + fuel) env [int 1]
             five_plus_true [e] st [Integer (next_ptr st) 1] (bump st));
      [| reflexivity | reflexivity].
    eapply evaluates_cons; [reflexivity | reflexivity | apply evaluates_nil]. }
  intros fuel.
  apply (Eval_fuel_add host 4 fuel); [vm_compute; reflexivity | discriminate].
Qed.

(** [first_error_short_circuit] on the arguments of [len(1, 5(), 3)]. *)
Lemma first_error_short_circuit_witness :
  Eval example_host 3
    (ast.CallExpression (var "len") ([int 1] ++ call_of_five :: [int 3]))
    global initial_state
  = Done (Error 2 "not a function: INTEGER") (mkState [∅] 3 0).
Proof.
  apply (proj1 (proj2 (proj2 (proj2
           (first_error_short_circuit example_host))))
           2%nat global (var "len") [int 1] call_of_five [int 3]
           initial_state (Builtin "len") initial_state [Integer 0 1]
           (bump initial_state) (Error 2 "not a function: INTEGER")
           (mkState [∅] 3 0));
    [reflexivity | reflexivity | | reflexivity | reflexivity].
  eapply evaluates_cons; [reflexivity | reflexivity | apply evaluates_nil].
Defined.

(** C6, the example of the claim: [[1, fn(){}(), 3]] does not evaluate to
    an Error.  [fn(){}] is a function, its call returns nil, and the array
    literal goes on to its third element. *)
Lemma array_with_empty_call_is_no_error :
  Eval example_host 4 array_with_empty_call global initial_state
  = Done (Array 3 [Integer 0 1; nil; Integer 2 3]) (mkState [∅; ∅] 4 0)
  /\ isError (Array 3 [Integer 0 1; nil; Integer 2 3]) = false.
Proof. split; reflexivity. Qed.

(** ** Hash literals *)

Lemma evalHashLiteral_from_cons host ev ptr pairs key value rest env st :
  evalHashLiteral_from host ev ptr pairs ((key, value) :: rest) env st
  = match ev (ast.Expr key) env st with
    | Done keyObject st1 =>
        if isError keyObject then Done keyObject st1
        else
          match HashKey_of host keyObject with
          | None =>
              bind (typeOf keyObject)
                (fun t =>
                   newError ("unusable as hash key: " +:+ type_name host t))
                st1
          | Some hashedKey =>
              match ev (ast.Expr value) env st1 with
              | Done valueObject st2 =>
                  if isError valueObject then Done valueObject st2
                  else
                    evalHashLiteral_from host ev ptr
                      (<[hashedKey := (keyObject, valueObject)]> pairs) rest
                      env st2
              | Panic p => Panic p
              | OutOfFuel => OutOfFuel
              end
          end
    | Panic p => Panic p
    | OutOfFuel => OutOfFuel
    end.
Proof.
  cbn. unfold bind. destruct (ev key env st) as [keyObject st1 | |]; try done.
  destruct (isError keyObject); [done |].
  destruct (HashKey_of host keyObject); [| done].
  destruct (ev value env st1) as [valueObject st2 | |]; try done.
  by destruct (isError valueObject).
Qed.






(** ** Errors are never stored *)

Lemma keeps_ret {A} (a : A) (Q : A -> Prop) : Q a -> keeps (ret a) Q.
Proof. intros Ha st a' st' Hst [= <- <-]. done. Qed.

Lemma keeps_bind {A B} (m : M A) (k : A -> M B) Q R :
  keeps m Q -> (forall a, Q a -> keeps (k a) R) -> keeps (bind m k) R.
Proof.
  intros Hm Hk st b st' Hst. unfold bind.
  destruct (m st) as [a st1 | |] eqn:Em; try discriminate.
  destruct (Hm _ _ _ Hst Em) as [Hst1 Ha]. by apply Hk.
Qed.

Lemma keeps_reads_only {A} (m : M A) : reads_only m -> keeps m (fun _ => True).
Proof.
  intros Hm st a st' Hst Em. split; [| done].
  unfold stores_error_free. by rewrite (Hm _ _ _ Em).
Qed.

Lemma reads_only_ret {A} (a : A) : reads_only (ret a).
Proof. by intros st a' st' [= <- <-]. Qed.

Lemma reads_only_bind {A B} (m : M A) (k : A -> M B) :
  reads_only m -> (forall a, reads_only (k a)) -> reads_only (bind m k).
Proof.
  intros Hm Hk st b st'. unfold bind.
  destruct (m st) as [a st1 | |] eqn:Em; try discriminate.
  intros Ek. rewrite (Hk _ _ _ _ Ek). by apply (Hm _ _ _ Em).
Qed.

Lemma reads_only_alloc : reads_only alloc.
Proof. by intros st a st' [= <- <-]. Qed.

Lemma reads_only_panic {A} p : reads_only (@panic A p).
Proof. by intros st a st'. Qed.

Lemma reads_only_typeOf o : reads_only (typeOf o).
Proof.
  unfold typeOf. destruct (Type_ o);
    [apply reads_only_ret | apply reads_only_panic].
Qed.

Lemma reads_only_newError message : reads_only (newError message).
Proof.
  apply reads_only_bind; [apply reads_only_alloc |].
  intros p. apply reads_only_ret.
Qed.

Lemma reads_only_next_range : reads_only next_range.
Proof. by intros st a st' [= <- <-]. Qed.

Lemma reads_only_Get env key : reads_only (Get env key).
Proof. by intros st a st' [= <- <-]. Qed.

(** Steps that close the goals [reads_only m] for the helpers that only
    allocate, inspect kinds and build Errors. *)
Ltac reads_only_step :=
  first
    [ apply reads_only_ret
    | apply reads_only_panic
    | apply reads_only_alloc
    | apply reads_only_typeOf
    | apply reads_only_newError
    | apply reads_only_Get
    | apply reads_only_bind; [| intros ?]
    | case_decide
    | case_match ].

Ltac reads_only_auto := repeat reads_only_step.

Lemma reads_only_evalPrefixExpression host operator right :
  reads_only (evalPrefixExpression host operator right).
Proof.
  unfold evalPrefixExpression, evalMinusPrefixOperatorExpression.
  reads_only_auto.
Qed.

Lemma reads_only_evalInfixExpression host operator left right :
  reads_only (evalInfixExpression host operator left right).
Proof.
  unfold evalInfixExpression, both_of_type, evalIntegerInfixExpression,
    evalStringInfixExpression.
  reads_only_auto.
Qed.

Lemma reads_only_evalIndexExpression host left index :
  reads_only (evalIndexExpression host left index).
Proof.
  unfold evalIndexExpression, evalArrayIndexExpression,
    evalHashIndexExpression.
  reads_only_auto.
Qed.

Lemma reads_only_evalIdentifier host name env :
  reads_only (evalIdentifier host name env).
Proof. unfold evalIdentifier. reads_only_auto. Qed.

Lemma keeps_Set env key value :
  isError value = false -> keeps (Set_ env key value) (fun _ => True).
Proof.
  intros Hv st a st' Hst [= <- <-]. split; [| done].
  unfold stores_error_free in *. cbn.
  apply Forall_alter; [done |].
  intros s _ Hs. by apply map_Forall_insert_2.
Qed.

Lemma keeps_NewEnclosedEnvironment outer :
  keeps (NewEnclosedEnvironment outer) (fun _ => True).
Proof.
  intros st a st' Hst [= <- <-]. split; [| done].
  unfold stores_error_free in *. cbn.
  apply Forall_app. split; [done |].
  constructor; [apply map_Forall_empty | constructor].
Qed.

Lemma keeps_bind_parameters env params :
  forall args idx,
    Forall (fun arg => isError arg = false) args ->
    keeps (bind_parameters env params args idx) (fun _ => True).
Proof.
  induction params as [| param rest IH]; intros args idx Hargs; cbn.
  - by apply keeps_ret.
  - destruct (args !! idx) as [arg |] eqn:Harg; [| by intros st a st'].
    eapply keeps_bind.
    + apply keeps_Set.
      apply (proj1 (Forall_lookup _ _) Hargs _ _ Harg).
    + intros _ _. by apply IH.
Qed.

Lemma keeps_extendFunctionEnv Parameters fnEnv args :
  Forall (fun arg => isError arg = false) args ->
  keeps (extendFunctionEnv Parameters fnEnv args) (fun _ => True).
Proof.
  intros Hargs. unfold extendFunctionEnv.
  eapply keeps_bind; [apply keeps_NewEnclosedEnvironment |].
  intros env _. eapply keeps_bind; [by apply keeps_bind_parameters |].
  intros _ _. by apply keeps_ret.
Qed.

Section Invariant.

Context (host : Host).

Hypothesis builtins_keep :
  forall name args,
    Forall (fun arg => isError arg = false) args ->
    keeps (builtin_Fn host name args) (fun _ => True).

Context (ev : ast.Node -> Environment -> M Object).

Hypothesis ev_keeps : forall node env, keeps (ev node env) (fun _ => True).

Lemma keeps_evalProgram_from stmts :
  forall result env,
    keeps (evalProgram_from ev result stmts env) (fun _ => True).
Proof.
  induction stmts as [| statement rest IH]; intros result env; cbn.
  - by apply keeps_ret.
  - eapply keeps_bind; [apply ev_keeps |].
    intros r _. destruct r; first [apply IH | by apply keeps_ret].
Qed.

Lemma keeps_evalStatements_from stmts :
  forall result env,
    keeps (evalStatements_from ev result stmts env) (fun _ => True).
Proof.
  induction stmts as [| statement rest IH]; intros result env; cbn.
  - by apply keeps_ret.
  - eapply keeps_bind; [apply ev_keeps |].
    intros r _. destruct (is_signal r); [by apply keeps_ret | apply IH].
Qed.

Lemma keeps_evalExpressions exps env :
  keeps (evalExpressions ev exps env)
    (fun args =>
       (exists err, args = [err] /\ isError err = true)
       \/ Forall (fun arg => isError arg = false) args).
Proof.
  intros st args st' Hst Hev. split.
  - unfold evalExpressions in Hev. revert st Hst Hev. generalize (@Datatypes.nil Object).
    induction exps as [| exp rest IH]; intros result st Hst Hev; cbn in Hev.
    + by injection Hev as _ <-.
    + unfold bind in Hev.
      destruct (ev (ast.Expr exp) env st) as [eval st1 | |] eqn:Ee;
        try discriminate.
      destruct (ev_keeps _ _ _ _ _ Hst Ee) as [Hst1 _].
      destruct (isError eval); [by injection Hev as _ <- | by eapply IH].
  - by eapply evalExpressions_result.
Qed.

Lemma keeps_evalIfExpression Condition Consequence Alternative env :
  keeps (evalIfExpression ev Condition Consequence Alternative env)
    (fun _ => True).
Proof.
  unfold evalIfExpression. eapply keeps_bind; [apply ev_keeps |].
  intros condition _. destruct (isError condition); [by apply keeps_ret |].
  destruct (isTruthy condition); [apply ev_keeps |].
  destruct Alternative; [apply ev_keeps | by apply keeps_ret].
Qed.

Lemma keeps_applyFunction fn args :
  Forall (fun arg => isError arg = false) args ->
  keeps (applyFunction host ev fn args) (fun _ => True).
Proof.
  intros Hargs.
  destruct fn; cbn;
    try (apply keeps_reads_only; reads_only_auto; fail).
  - eapply keeps_bind; [by apply keeps_extendFunctionEnv |].
    intros extendedEnv _. eapply keeps_bind; [apply ev_keeps |].
    intros evaluated _. by apply keeps_ret.
  - by apply builtins_keep.
Qed.

Lemma keeps_evalHashLiteral_from todo :
  forall ptr pairs env,
    keeps (evalHashLiteral_from host ev ptr pairs todo env) (fun _ => True).
Proof.
  induction todo as [| [key value] rest IH]; intros ptr pairs env; cbn.
  - by apply keeps_ret.
  - eapply keeps_bind; [apply ev_keeps |].
    intros keyObject _. destruct (isError keyObject); [by apply keeps_ret |].
    destruct (HashKey_of host keyObject) as [hashedKey |].
    + eapply keeps_bind; [apply ev_keeps |].
      intros valueObject _.
      destruct (isError valueObject); [by apply keeps_ret | apply IH].
    + apply keeps_reads_only. reads_only_auto.
Qed.

Lemma keeps_Eval_node node env :
  keeps (Eval_node host ev node env) (fun _ => True).
Proof.
  destruct node as [stmts | stmts | [name value | e | e] | e].
  - apply keeps_evalProgram_from.
  - apply keeps_evalStatements_from.
  - cbn. eapply keeps_bind; [apply ev_keeps |].
    intros evaluated _. destruct (isError evaluated) eqn:He;
      [by apply keeps_ret |].
    eapply keeps_bind; [by apply keeps_Set |].
    intros _ _. by apply keeps_ret.
  - cbn. eapply keeps_bind; [apply ev_keeps |].
    intros evaluated _. apply keeps_reads_only. reads_only_auto.
  - apply ev_keeps.
  - destruct e; cbn.
    + apply keeps_reads_only, reads_only_evalIdentifier.
    + apply keeps_reads_only. reads_only_auto.
    + by apply keeps_ret.
    + apply keeps_reads_only. reads_only_auto.
    + eapply keeps_bind; [apply ev_keeps |].
      intros r _. destruct (isError r); [by apply keeps_ret |].
      apply keeps_reads_only, reads_only_evalPrefixExpression.
    + eapply keeps_bind; [apply ev_keeps |].
      intros l _. destruct (isError l); [by apply keeps_ret |].
      eapply keeps_bind; [apply ev_keeps |].
      intros r _. destruct (isError r); [by apply keeps_ret |].
      apply keeps_reads_only, reads_only_evalInfixExpression.
    + apply keeps_evalIfExpression.
    + apply keeps_reads_only. reads_only_auto.
    + eapply keeps_bind; [apply ev_keeps |].
      intros function _. destruct (isError function); [by apply keeps_ret |].
      eapply keeps_bind; [apply keeps_evalExpressions |].
      intros args Hargs. destruct args as [| arg [| arg' args]].
      * by apply keeps_applyFunction.
      * destruct (isError arg) eqn:Harg; [by apply keeps_ret |].
        apply keeps_applyFunction. by constructor.
      * apply keeps_applyFunction.
        by destruct Hargs as [(err & [=] & _) | Hargs].
    + eapply keeps_bind; [apply keeps_evalExpressions |].
      intros elements _. apply keeps_reads_only. reads_only_auto.
    + eapply keeps_bind; [apply ev_keeps |].
      intros l _. destruct (isError l); [by apply keeps_ret |].
      eapply keeps_bind; [apply ev_keeps |].
      intros r _. destruct (isError r); [by apply keeps_ret |].
      apply keeps_reads_only, reads_only_evalIndexExpression.
    + eapply keeps_bind; [apply keeps_reads_only, reads_only_alloc |].
      intros ptr _.
      eapply keeps_bind; [apply keeps_reads_only, reads_only_next_range |].
      intros n _. apply keeps_evalHashLiteral_from.
Qed.

End Invariant.

Lemma keeps_Eval host :
  (forall name args,
     Forall (fun arg => isError arg = false) args ->
     keeps (builtin_Fn host name args) (fun _ => True)) ->
  forall fuel node env, keeps (Eval host fuel node env) (fun _ => True).
Proof.
  intros Hfn. induction fuel as [| fuel IH]; intros node env.
  - by intros st a st'.
  - rewrite Eval_S. by apply keeps_Eval_node.
Qed.

Lemma evalHashLiteral_from_entries host ev todo :
  forall ptr pairs env st q entries st',
    map_Forall (fun _ entry => isError entry.1 = false
                               /\ isError entry.2 = false) pairs ->
    evalHashLiteral_from host ev ptr pairs todo env st
    = Done (Hash q entries) st' ->
    map_Forall (fun _ entry => isError entry.1 = false
                               /\ isError entry.2 = false) entries.
Proof.
  induction todo as [| [key value] rest IH];
    intros ptr pairs env st q entries st' Hpairs Hev.
  - by injection Hev as _ <- _.
  - rewrite evalHashLiteral_from_cons in Hev.
    destruct (ev (ast.Expr key) env st) as [keyObject st1 | |];
      try discriminate.
    destruct (isError keyObject) eqn:Hk.
    { injection Hev as -> _. discriminate Hk. }
    destruct (HashKey_of host keyObject) as [hashedKey |].
    + destruct (ev (ast.Expr value) env st1) as [valueObject st2 | |];
        try discriminate.
      destruct (isError valueObject) eqn:Hv.
      { injection Hev as -> _. discriminate Hv. }
      eapply IH; [| exact Hev]. by apply map_Forall_insert_2.
    + unfold bind, typeOf in Hev.
      destruct (Type_ keyObject); discriminate Hev.
Qed.

Lemma Eval_ArrayLiteral_elements host fuel Elements env st p elements st' :
  Eval host fuel (ast.ArrayLiteral Elements) env st
  = Done (Array p elements) st' ->
  Forall (fun element => isError element = false) elements.
Proof.
  destruct fuel as [| fuel]; [discriminate |].
  rewrite Eval_S. cbn [Eval_node]. unfold bind.
  destruct (evalExpressions (Eval host fuel) Elements env st)
    as [values st1 | |] eqn:Ev; try discriminate.
  apply evalExpressions_result in Ev.
  destruct values as [| value [| value' values]]; cbn.
  - intros [= _ <- _]. constructor.
  - destruct (isError value) eqn:Hv.
    + intros [= -> _]. discriminate Hv.
    + intros [= _ <- _]. by constructor.
  - intros [= _ <- _]. by destruct Ev as [(err & [=] & _) | Ev].
Qed.

Lemma Eval_HashLiteral_entries host fuel Pairs env st p entries st' :
  Eval host fuel (ast.HashLiteral Pairs) env st = Done (Hash p entries) st' ->
  map_Forall (fun _ entry => isError entry.1 = false
                             /\ isError entry.2 = false) entries.
Proof.
  destruct fuel as [| fuel]; [discriminate |].
  rewrite Eval_S. cbn [Eval_node].
  apply evalHashLiteral_from_entries, map_Forall_empty.
Qed.

Lemma reads_only_len args : reads_only (example.len args).
Proof. unfold len. reads_only_auto. Qed.

(** C3, for Errors: an Error is never stored.  Provided the builtins of
    the host bind no Error when they are given no Error, an evaluation
    that starts with stores free of Errors ends with stores free of
    Errors; no element of the Array that an array literal returns and no
    key or value of the Hash that a hash literal returns is an Error; and
    what a builtin would do with an argument list that contains an Error
    has no influence on any evaluation.  Every construct checks the value
    of a sub-expression with [isError] and returns an Error at once, in
    the state the sub-expression left.  (A ReturnValue is not checked for
    at these points.) *)
Theorem errors_are_never_stored host :
  ((forall name args st r st',
      Forall (fun arg => isError arg = false) args ->
      stores_error_free st ->
      builtin_Fn host name args st = Done r st' -> stores_error_free st') ->
   forall fuel node env st r st',
     stores_error_free st ->
     Eval host fuel node env st = Done r st' -> stores_error_free st') /\
  (forall fuel Elements env st p elements st',
     Eval host fuel (ast.ArrayLiteral Elements) env st
     = Done (Array p elements) st' ->
     Forall (fun element => isError element = false) elements) /\
  (forall fuel Pairs env st p entries st',
     Eval host fuel (ast.HashLiteral Pairs) env st
     = Done (Hash p entries) st' ->
     map_Forall (fun _ entry => isError entry.1 = false
                                /\ isError entry.2 = false) entries) /\
  (forall host',
     hosts_agree host host' ->
     forall fuel node env st,
       Eval host fuel node env st = Eval host' fuel node env st) /\
  (forall fuel e env st err st1,
     Eval host fuel (ast.Expr e) env st = Done err st1 ->
     isError err = true ->
     (forall Name,
        Eval host (S fuel) (ast.Stmt (ast.LetStatement Name e)) env st
        = Done err st1) /\
     Eval host (S fuel) (ast.Stmt (ast.ReturnStatement e)) env st
     = Done err st1 /\
     (forall Operator,
        Eval host (S fuel) (ast.PrefixExpression Operator e) env st
        = Done err st1) /\
     (forall Operator Right,
        Eval host (S fuel) (ast.InfixExpression e Operator Right) env st
        = Done err st1) /\
     (forall Consequence Alternative,
        Eval host (S fuel) (ast.IfExpression e Consequence Alternative) env st
        = Done err st1) /\
     (forall Arguments,
        Eval host (S fuel) (ast.CallExpression e Arguments) env st
        = Done err st1) /\
     (forall Index,
        Eval host (S fuel) (ast.IndexExpression e Index) env st
        = Done err st1)) /\
  (forall fuel Left e env st left st0 err st1,
     Eval host fuel (ast.Expr Left) env st = Done left st0 ->
     isError left = false ->
     Eval host fuel (ast.Expr e) env st0 = Done err st1 ->
     isError err = true ->
     (forall Operator,
        Eval host (S fuel) (ast.InfixExpression Left Operator e) env st
        = Done err st1) /\
     Eval host (S fuel) (ast.IndexExpression Left e) env st = Done err st1).
Proof.
  split.
  { intros Hfn fuel node env st r st' Hst Hev.
    refine (proj1 (keeps_Eval host _ fuel node env st r st' Hst Hev)).
    intros name args Hargs st0 a st0' Hst0 Hcall. split; [| done].
    by eapply Hfn. }
  split; [exact (Eval_ArrayLiteral_elements host) |].
  split; [exact (Eval_HashLiteral_entries host) |].
  split.
  { intros host' Hagree fuel node env st. by apply Eval_hosts_agree. }
  split.
  { intros fuel e env st err st1 He Herr.
    repeat split; intros; rewrite Eval_S; cbn [Eval_node];
      unfold evalIfExpression, bind; by rewrite He, Herr. }
  intros fuel Left e env st left st0 err st1 Hl Hle He Herr.
  split; intros; rewrite Eval_S; cbn [Eval_node]; unfold bind;
    by rewrite Hl, Hle, He, Herr.
Qed.

(** [errors_are_never_stored] on [let x = if (true) { return 5 };] run by
    the example host. *)
Lemma errors_are_never_stored_witness :
  stores_error_free (mkState [{["x" := ReturnValue 1 (Integer 0 5)]}] 2 0).
Proof.
  apply (proj1 (errors_are_never_stored example_host)) with
    (fuel := 5%nat) (node := let_of_return) (env := global)
    (st := initial_state) (r := nil).
  - intros name args st r st' _ Hst Hcall.
    unfold stores_error_free.
    by rewrite (reads_only_len args st r st' Hcall).
  - repeat constructor. apply map_Forall_empty.
  - reflexivity.
Defined.

(** C3, for ReturnValue: [let x = if (true) { return 5 };] binds [x] to a
    ReturnValue, and [[if (true) { return 5 }]] is an Array whose element
    is a ReturnValue. *)
Lemma return_value_is_stored :
  Eval example_host 5 let_of_return global initial_state
  = Done nil (mkState [{["x" := ReturnValue 1 (Integer 0 5)]}] 2 0) /\
  Eval example_host 5 (ast.ArrayLiteral [if_true_return_5]) global
    initial_state
  = Done (Array 2 [ReturnValue 1 (Integer 0 5)]) (mkState [∅] 3 0).
Proof. split; reflexivity. Qed.

(** * Further properties *)

(** ** A program is a block whose result is unwrapped *)

Lemma evalProgram_from_unwrap ev stmts :
  forall result env st,
    is_signal result = false ->
    evalProgram_from ev result stmts env st
    = map_outcome unwrapReturnValue
        (evalStatements_from ev result stmts env st).
Proof.
  induction stmts as [| statement rest IH]; intros result env st Hres.
  - cbn. by destruct result.
  - rewrite evalStatements_from_cons. cbn. unfold bind.
    destruct (ev statement env st) as [r st1 | |]; try done.
    destruct (is_signal r) eqn:Hr.
    + by destruct r.
    + rewrite <- IH by done. by destruct r.
Qed.

(** X1: evaluating a statement list as a program gives, in the same final
    state, what evaluating it as a block gives, with a ReturnValue
    replaced by the value in it; panics and non-termination are the same.
    In particular calling a function evaluates its body as a program in
    the extended environment. *)
Theorem program_is_unwrapped_block host :
  (forall ev stmts env st,
     evalProgram ev stmts env st
     = map_outcome unwrapReturnValue (evalStatements ev stmts env st)) /\
  (forall fuel stmts env st,
     Eval host (S fuel) (ast.Program stmts) env st
     = map_outcome unwrapReturnValue
         (Eval host (S fuel) (ast.BlockStatement stmts) env st)) /\
  (forall fuel q Parameters Body fnEnv args st,
     applyFunction host (Eval host (S fuel))
       (Function q Parameters Body fnEnv) args st
     = bind (extendFunctionEnv Parameters fnEnv args)
         (fun extendedEnv => Eval host (S fuel) (ast.Program Body) extendedEnv)
         st).
Proof.
  split; [| split].
  - intros ev stmts env st. by apply evalProgram_from_unwrap.
  - intros fuel stmts env st. rewrite !Eval_S. cbn [Eval_node].
    by apply evalProgram_from_unwrap.
  - intros fuel q Parameters Body fnEnv args st.
    cbn [applyFunction]. unfold bind.
    destruct (extendFunctionEnv Parameters fnEnv args st)
      as [extendedEnv st1 | |]; try done.
    rewrite !Eval_S. cbn [Eval_node]. unfold evalProgram, evalStatements.
    rewrite evalProgram_from_unwrap by done.
    by destruct (evalStatements_from (Eval host fuel) nil Body extendedEnv
                   st1).
Qed.

(** ** What a run of a list returns *)

Lemma evalExpressions_from_inv ev env exps :
  forall result st args st',
    evalExpressions_from ev result exps env st = Done args st' ->
    (exists values,
       evaluates ev env st exps values st' /\ args = result ++ values)
    \/ (exists pre e post values st1 err,
          exps = pre ++ e :: post /\
          evaluates ev env st pre values st1 /\
          ev (ast.Expr e) env st1 = Done err st' /\
          isError err = true /\ args = [err]).
Proof.
  induction exps as [| exp rest IH]; intros result st args st' Hev.
  - injection Hev as <- <-. left. exists []. split; [constructor |].
    by rewrite app_nil_r.
  - rewrite evalExpressions_from_cons in Hev.
    destruct (ev (ast.Expr exp) env st) as [eval st1 | |] eqn:Ee;
      try discriminate.
    destruct (isError eval) eqn:Herr.
    + injection Hev as <- <-. right.
      exists [], exp, rest, [], st, eval.
      repeat split; try done. constructor.
    + destruct (IH _ _ _ _ Hev)
        as [(values & Hvals & ->)
           | (pre & e & post & values & st2 & err & -> & Hpre & He & Herr'
              & ->)].
      * left. exists (eval :: values). split; [by econstructor |].
        by rewrite <- app_assoc.
      * right. exists (exp :: pre), e, post, (eval :: values), st2, err.
        repeat split; try done. by econstructor.
Qed.

Lemma evaluates_length ev env st exps values st' :
  evaluates ev env st exps values st' ->
  length values = length exps
  /\ Forall (fun value => isError value = false) values.
Proof.
  induction 1 as [| st exp rest value st1 values st' Hev Hval Hrest [IHl IHf]].
  - split; [done | constructor].
  - split; [cbn; by rewrite IHl | by constructor].
Qed.

(** X2: whenever [evalExpressions] returns, either every expression of
    the list evaluated, in order, to a value that is no Error, and the
    result is the list of these values, one per expression; or some
    expression is the first to evaluate to an Error, the expressions
    before it evaluated to non-Errors, the result is the one-element list
    of that Error, and the final state is the one in which that expression
    left off. *)
Theorem evalExpressions_returns ev env exps st args st' :
  evalExpressions ev exps env st = Done args st' ->
  (evaluates ev env st exps args st' /\ length args = length exps
   /\ Forall (fun arg => isError arg = false) args)
  \/ (exists pre e post values st1 err,
        exps = pre ++ e :: post /\
        evaluates ev env st pre values st1 /\
        ev (ast.Expr e) env st1 = Done err st' /\
        isError err = true /\ args = [err]).
Proof.
  intros Hev. apply evalExpressions_from_inv in Hev.
  destruct Hev as [(values & Hvals & ->) | Herr]; [left | by right].
  cbn. split; [done |]. by eapply evaluates_length.
Qed.

(** [evalExpressions_returns] on the arguments [1, 5(), 3]. *)
Lemma evalExpressions_returns_witness :
  (evaluates (Eval example_host 2) global initial_state
     [int 1; call_of_five; int 3] [Error 2 "not a function: INTEGER"]
     (mkState [∅] 3 0)
   /\ length [Error 2 "not a function: INTEGER"]
      = length [int 1; call_of_five; int 3]
   /\ Forall (fun arg => isError arg = false)
        [Error 2 "not a function: INTEGER"])
  \/ (exists pre e post values st1 err,
        [int 1; call_of_five; int 3] = pre ++ e :: post /\
        evaluates (Eval example_host 2) global initial_state pre values st1 /\
        Eval example_host 2 (ast.Expr e) global st1
        = Done err (mkState [∅] 3 0) /\
        isError err = true /\ [Error 2 "not a function: INTEGER"] = [err]).
Proof.
  apply (evalExpressions_returns (Eval example_host 2) global
           [int 1; call_of_five; int 3] initial_state).
  reflexivity.
Defined.

Lemma evalStatements_from_inv ev env stmts :
  forall result st r st',
    evalStatements_from ev result stmts env st = Done r st' ->
    passes ev env result st stmts r st'
    \/ (exists pre statement post r1 st1,
          stmts = pre ++ statement :: post /\
          passes ev env result st pre r1 st1 /\
          ev (ast.Stmt statement) env st1 = Done r st' /\
          is_signal r = true).
Proof.
  induction stmts as [| statement rest IH]; intros result st r st' Hev.
  - injection Hev as <- <-. left. constructor.
  - rewrite evalStatements_from_cons in Hev.
    destruct (ev (ast.Stmt statement) env st) as [r0 st1 | |] eqn:Es;
      try discriminate.
    destruct (is_signal r0) eqn:Hsig.
    + injection Hev as <- <-. right.
      exists [], statement, rest, result, st.
      repeat split; try done. constructor.
    + destruct (IH _ _ _ _ Hev)
        as [Hrest | (pre & s & post & r1 & st2 & -> & Hpre & Hs & Hsig')].
      * left. by econstructor.
      * right. exists (statement :: pre), s, post, r1, st2.
        repeat split; try done. by econstructor.
Qed.

(** X3: whenever a block returns, either none of its statements returned
    a ReturnValue or an Error and the result is the result of the last
    one (nil for the empty block), or the result is the ReturnValue or
    Error of the first statement that returned one, in the state that
    statement left; so a block never returns a ReturnValue or an Error
    that is not the result of one of its statements. *)
Theorem evalStatements_returns ev env stmts st r st' :
  evalStatements ev stmts env st = Done r st' ->
  passes ev env nil st stmts r st'
  \/ (exists pre statement post r1 st1,
        stmts = pre ++ statement :: post /\
        passes ev env nil st pre r1 st1 /\
        ev (ast.Stmt statement) env st1 = Done r st' /\
        is_signal r = true).
Proof. apply evalStatements_from_inv. Qed.

(** [evalStatements_returns] on the block [let a = 1; return a; 3]. *)
Lemma evalStatements_returns_witness :
  passes (Eval example_host 2) global nil initial_state let_return_more
    (ReturnValue 1 (Integer 0 1)) (mkState [{["a" := Integer 0 1]}] 2 0)
  \/ (exists pre statement post r1 st1,
        let_return_more = pre ++ statement :: post /\
        passes (Eval example_host 2) global nil initial_state pre r1 st1 /\
        Eval example_host 2 (ast.Stmt statement) global st1
        = Done (ReturnValue 1 (Integer 0 1))
            (mkState [{["a" := Integer 0 1]}] 2 0) /\
        is_signal (ReturnValue 1 (Integer 0 1)) = true).
Proof.
  apply (evalStatements_returns (Eval example_host 2) global let_return_more
           initial_state).
  reflexivity.
Defined.

(** ** Scopes *)

(** [Get] reads the key in the stores of the chain and nothing else. *)
Lemma Get_in_ext h h' env key :
  (forall b, b ∈ scopes env -> store_at h b !! key = store_at h' b !! key) ->
  Get_in h env key = Get_in h' env key.
Proof.
  induction env as [b | b o IH] using Environment_chain_ind;
    intros Hsame; cbn in Hsame |- *.
  - by rewrite (Hsame b) by set_solver.
  - rewrite (Hsame b) by set_solver.
    destruct (store_at h' b !! key); [done |].
    apply IH. intros b' Hb'. apply Hsame. set_solver.
Qed.

Lemma store_at_app_old (h : list (gmap string Object)) s a :
  (a < length h)%nat -> store_at (h ++ [s]) a = store_at h a.
Proof. intros Ha. unfold store_at. by rewrite lookup_app_l. Qed.

Lemma store_at_app_new (h : list (gmap string Object)) s :
  store_at (h ++ [s]) (length h) = s.
Proof. unfold store_at. by rewrite list_lookup_middle. Qed.

Lemma store_at_alter_other (h : list (gmap string Object)) f a b :
  a <> b -> store_at (alter f a h) b = store_at h b.
Proof. intros Hne. unfold store_at. by rewrite list_lookup_alter_ne. Qed.

Lemma store_at_alter_insert (h : list (gmap string Object)) a key value :
  (a < length h)%nat ->
  store_at (alter (fun s => <[key := value]> s) a h) a
  = <[key := value]> (store_at h a).
Proof.
  intros Ha. unfold store_at. rewrite list_lookup_alter_eq.
  by destruct (lookup_lt_is_Some_2 h a Ha) as [s ->].
Qed.

Lemma store_at_alter_key (h : list (gmap string Object)) a b key key' value :
  key' <> key ->
  store_at (alter (fun s => <[key := value]> s) a h) b !! key'
  = store_at h b !! key'.
Proof.
  intros Hne. destruct (decide (a = b)) as [<- | Hab].
  - unfold store_at. rewrite list_lookup_alter_eq.
    destruct (h !! a) as [s |]; cbn; [by rewrite lookup_insert_ne | done].
  - by rewrite store_at_alter_other.
Qed.

(** X4: [NewEnclosedEnvironment] gives a scope of its own in front of the
    outer chain.  While it is empty every name resolves as in the outer
    scope; [Set] through the new scope binds the name there, leaves every
    [Get] through the outer scope as it was (the outer binding is
    shadowed, not overwritten) and changes no other name; and a binding
    [Set] through the outer scope afterwards is seen through the new
    scope. *)
Theorem enclosed_scope_shadows outer st :
  allocated outer st ->
  let inner := Env (length (stores st)) (Some outer) in
  let st1 := mkState (stores st ++ [∅]) (next_ptr st) (ranges st) in
  NewEnclosedEnvironment outer st = Done inner st1 /\
  (forall key,
     Get_in (stores st1) inner key = Get_in (stores st) outer key) /\
  (forall key value st2,
     Set_ inner key value st1 = Done value st2 ->
     Get_in (stores st2) inner key = (value, true) /\
     (forall key',
        Get_in (stores st2) outer key' = Get_in (stores st) outer key') /\
     (forall key',
        key' <> key ->
        Get_in (stores st2) inner key' = Get_in (stores st) outer key')) /\
  (forall key value st2,
     Set_ outer key value st1 = Done value st2 ->
     Get_in (stores st2) inner key = (value, true)).
Proof.
  intros Halloc inner st1.
  assert (Houter : forall h, (forall b, b ∈ scopes outer ->
                      forall key, store_at h b !! key
                                  = store_at (stores st) b !! key) ->
                   forall key, Get_in h outer key
                               = Get_in (stores st) outer key).
  { intros h Hh key. apply Get_in_ext. intros b Hb. by apply Hh. }
  split; [reflexivity |].
  split.
  { intros key. cbn. rewrite store_at_app_new, lookup_empty.
    apply Houter. intros b Hb key'. by rewrite store_at_app_old by auto. }
  split.
  - intros key value st2 [= <-]. cbn [stores store_of inner].
    repeat split.
    + cbn. rewrite store_at_alter_insert by (rewrite length_app; cbn; lia).
      by rewrite lookup_insert_eq.
    + apply Houter. intros b Hb key'.
      rewrite store_at_alter_other by (specialize (Halloc b Hb); lia).
      by rewrite store_at_app_old by auto.
    + intros key' Hne. cbn. rewrite store_at_alter_key by done.
      rewrite store_at_app_new, lookup_empty.
      apply Houter. intros b Hb key''.
      rewrite store_at_alter_other by (specialize (Halloc b Hb); lia).
      by rewrite store_at_app_old by auto.
  - intros key value st2 [= <-]. cbn [stores inner].
    assert (Ho : (store_of outer < length (stores st))%nat).
    { apply Halloc. destruct outer. set_solver. }
    cbn. rewrite store_at_alter_other by lia.
    rewrite store_at_app_new, lookup_empty.
    destruct outer as [a o]. cbn in *.
    rewrite store_at_alter_insert by (rewrite length_app; lia).
    by rewrite lookup_insert_eq.
Qed.

(** [enclosed_scope_shadows] on a scope enclosed by the global one, in
    which [x] is bound to 1: binding [x] to 2 in the new scope. *)
Lemma enclosed_scope_shadows_witness :
  Get_in [{["x" := Integer 0 1]}; {["x" := Integer 1 2]}]
    (Env 1 (Some global)) "x" = (Integer 1 2, true)
  /\ (forall key',
        Get_in [{["x" := Integer 0 1]}; {["x" := Integer 1 2]}] global key'
        = Get_in [{["x" := Integer 0 1]}] global key')
  /\ (forall key',
        key' <> "x" ->
        Get_in [{["x" := Integer 0 1]}; {["x" := Integer 1 2]}]
          (Env 1 (Some global)) key'
        = Get_in [{["x" := Integer 0 1]}] global key').
Proof.
  refine (proj1 (proj2 (proj2 (enclosed_scope_shadows global
            (mkState [{["x" := Integer 0 1]}] 2 0) _))) "x" (Integer 1 2)
            (mkState [{["x" := Integer 0 1]}; {["x" := Integer 1 2]}] 2 0)
            eq_refl).
  intros a Ha. apply list_elem_of_singleton in Ha as ->. cbn. lia.
Defined.

(** X5: a [let] whose value evaluates to a non-Error returns nil,
    allocates nothing and binds the name in the current scope: from then
    on the identifier evaluates, in that environment, to the very object
    the value expression returned, and every other name resolves as
    before. *)
Theorem let_then_identifier host fuel Name e env st value st1 :
  Eval host fuel (ast.Expr e) env st = Done value st1 ->
  isError value = false ->
  (store_of env < length (stores st1))%nat ->
  exists st2,
    Eval host (S fuel) (ast.Stmt (ast.LetStatement Name e)) env st
    = Done nil st2 /\
    next_ptr st2 = next_ptr st1 /\
    length (stores st2) = length (stores st1) /\
    (forall fuel',
       Eval host (S fuel') (ast.Identifier Name) env st2 = Done value st2) /\
    (forall name',
       name' <> Name ->
       Get_in (stores st2) env name' = Get_in (stores st1) env name').
Proof.
  intros He Hv Ha.
  destruct (Set_ env Name value st1) as [v st2 | |] eqn:Hset;
    try discriminate.
  assert (Hval : v = value) by (by injection Hset as <- _). subst v.
  exists st2. split.
  { rewrite Eval_S. cbn [Eval_node]. unfold bind.
    by rewrite He, Hv, Hset. }
  split; [by injection Hset as <- |].
  split; [injection Hset as <-; cbn; by rewrite length_alter |].
  split.
  - intros fuel'. rewrite Eval_S. cbn [Eval_node].
    unfold evalIdentifier, bind.
    by rewrite (Get_after_Set _ _ _ _ _ Ha Hset).
  - intros name' Hne. injection Hset as <-. cbn.
    apply Get_in_ext. intros b _. by apply store_at_alter_key.
Qed.

(** [let_then_identifier] on [let len = 5;] in the global scope: the
    identifier [len] is then the Integer, not the builtin. *)
Lemma let_then_identifier_witness :
  exists st2,
    Eval example_host 2 (ast.Stmt (ast.LetStatement "len" (int 5))) global
      initial_state = Done nil st2 /\
    next_ptr st2 = 1%nat /\
    length (stores st2) = 1%nat /\
    (forall fuel',
       Eval example_host (S fuel') (ast.Identifier "len") global st2
       = Done (Integer 0 5) st2) /\
    (forall name',
       name' <> "len" ->
       Get_in (stores st2) global name' = Get_in [∅] global name').
Proof.
  apply (let_then_identifier example_host 1 "len" (int 5) global
           initial_state (Integer 0 5) (bump initial_state));
    [reflexivity | reflexivity | cbn; lia].
Defined.

(** ** Array literals and indexing *)

Lemma evalExpressions_evaluates ev env exps st values st' :
  evaluates ev env st exps values st' ->
  evalExpressions ev exps env st = Done values st'.
Proof.
  intros Hev. unfold evalExpressions. rewrite <- (app_nil_r exps).
  by rewrite (evalExpressions_from_evaluates _ _ _ _ _ _ Hev).
Qed.

Lemma Eval_ArrayLiteral_evaluates host fuel env exps st values st1 :
  evaluates (Eval host fuel) env st exps values st1 ->
  Eval host (S fuel) (ast.ArrayLiteral exps) env st
  = Done (Array (next_ptr st1) values) (bump st1).
Proof.
  intros Hev. rewrite Eval_S. cbn [Eval_node]. unfold bind.
  rewrite (evalExpressions_evaluates _ _ _ _ _ _ Hev).
  destruct (evaluates_length _ _ _ _ _ _ Hev) as [_ Hvals].
  destruct values as [| value [| value' values]]; try done.
  by rewrite (Forall_inv Hvals).
Qed.

Lemma Eval_IndexExpression_values host fuel Left Index env st left st1 index
    st2 :
  Eval host fuel (ast.Expr Left) env st = Done left st1 ->
  isError left = false ->
  Eval host fuel (ast.Expr Index) env st1 = Done index st2 ->
  isError index = false ->
  Eval host (S fuel) (ast.IndexExpression Left Index) env st
  = evalIndexExpression host left index st2.
Proof.
  intros Hl Hle Hi Hie. rewrite Eval_S. cbn [Eval_node]. unfold bind.
  by rewrite Hl, Hle, Hi, Hie.
Qed.

(** X6: when every element expression of an array literal evaluates to a
    non-Error, the literal allocates one Array that holds exactly these
    values, one per expression and in their order; indexing the literal by
    an integer literal [i] below the number of elements returns the value
    of the [i]-th element expression, and by any other integer [NULL]. *)
Theorem array_literal_then_index host fuel env exps st values st1 :
  evaluates (Eval host fuel) env st exps values st1 ->
  Eval host (S fuel) (ast.ArrayLiteral exps) env st
  = Done (Array (next_ptr st1) values) (bump st1) /\
  length values = length exps /\
  (forall i,
     (i < length exps)%nat ->
     exists value,
       values !! i = Some value /\
       Eval host (S (S fuel))
         (ast.IndexExpression (ast.ArrayLiteral exps)
            (ast.IntegerLiteral (Z.of_nat i))) env st
       = Done value (bump (bump st1))) /\
  (forall z,
     ~ (0 <= z < Z.of_nat (length exps)) ->
     Eval host (S (S fuel))
       (ast.IndexExpression (ast.ArrayLiteral exps) (ast.IntegerLiteral z))
       env st
     = Done NULL (bump (bump st1))).
Proof.
  intros Hev. pose proof (Eval_ArrayLiteral_evaluates _ _ _ _ _ _ _ Hev) as Ha.
  destruct (evaluates_length _ _ _ _ _ _ Hev) as [Hlen _].
  split; [done |]. split; [done |]. split.
  - intros i Hi.
    destruct (lookup_lt_is_Some_2 values i) as [value Hvalue]; [lia |].
    exists value. split; [done |].
    rewrite (Eval_IndexExpression_values host (S fuel) (ast.ArrayLiteral exps)
               (ast.IntegerLiteral (Z.of_nat i)) env st _ _
               (Integer (next_ptr (bump st1)) (Z.of_nat i)) (bump (bump st1))
               Ha eq_refl eq_refl eq_refl).
    rewrite evalIndexExpression_array. cbn.
    rewrite decide_False by lia. by rewrite Nat2Z.id, Hvalue.
  - intros z Hz.
    rewrite (Eval_IndexExpression_values host (S fuel) (ast.ArrayLiteral exps)
               (ast.IntegerLiteral z) env st _ _
               (Integer (next_ptr (bump st1)) z) (bump (bump st1))
               Ha eq_refl eq_refl eq_refl).
    rewrite evalIndexExpression_array. cbn.
    by rewrite decide_True by lia.
Qed.

(** [array_literal_then_index] on [[1, 2, 3]]. *)
Lemma array_literal_then_index_witness :
  Eval example_host 2 one_two_three global initial_state
  = Done (Array 3 [Integer 0 1; Integer 1 2; Integer 2 3])
      (mkState [∅] 4 0) /\
  length [Integer 0 1; Integer 1 2; Integer 2 3] = 3%nat.
Proof.
  assert (He : evaluates (Eval example_host 1) global initial_state
                 [int 1; int 2; int 3]
                 [Integer 0 1; Integer 1 2; Integer 2 3]
                 (mkState [∅] 3 0)).
  { repeat (eapply evaluates_cons; [reflexivity | reflexivity |]).
    apply evaluates_nil. }
  pose proof (array_literal_then_index example_host 1 global _ _ _ _ He)
    as (Ha & Hl & _).
  split; [exact Ha | exact Hl].
Defined.

(** ** Hash literals and indexing *)




(** ** Calls *)

(** X8: a call evaluates the callee, then the arguments from left to
    right, and applies the callee's value to the argument values.
    Applying a value that is neither a Function nor a Builtin is the Error
    "not a function: <type>", for which neither a body nor a builtin is
    run; applying the nil interface is a Go panic; a Builtin's result,
    whatever it is, is the result of the call. *)
Theorem call_expression_applies host :
  (forall fuel callee Arguments env st fn st0 args st1,
     Eval host fuel (ast.Expr callee) env st = Done fn st0 ->
     isError fn = false ->
     evaluates (Eval host fuel) env st0 Arguments args st1 ->
     Eval host (S fuel) (ast.CallExpression callee Arguments) env st
     = applyFunction host (Eval host fuel) fn args st1) /\
  (forall ev fn args t st,
     Type_ fn = Some t -> t <> FUNCTION_OBJ -> t <> BUILTIN_OBJ ->
     applyFunction host ev fn args st
     = Done (Error (next_ptr st) ("not a function: " +:+ type_name host t))
         (bump st)) /\
  (forall ev args st,
     applyFunction host ev nil args st = Panic NilDereference) /\
  (forall fuel callee Arguments env st name st0 args st1,
     Eval host fuel (ast.Expr callee) env st = Done (Builtin name) st0 ->
     evaluates (Eval host fuel) env st0 Arguments args st1 ->
     Eval host (S fuel) (ast.CallExpression callee Arguments) env st
     = builtin_Fn host name args st1).
Proof.
  assert (Hcall : forall fuel callee Arguments env st fn st0 args st1,
            Eval host fuel (ast.Expr callee) env st = Done fn st0 ->
            isError fn = false ->
            evaluates (Eval host fuel) env st0 Arguments args st1 ->
            Eval host (S fuel) (ast.CallExpression callee Arguments) env st
            = applyFunction host (Eval host fuel) fn args st1).
  { intros fuel callee Arguments env st fn st0 args st1 Hfn Herr Hargs.
    rewrite Eval_S. cbn [Eval_node]. unfold bind. rewrite Hfn, Herr.
    rewrite (evalExpressions_evaluates _ _ _ _ _ _ Hargs).
    destruct (evaluates_length _ _ _ _ _ _ Hargs) as [_ Hvals].
    destruct args as [| arg [| arg' args]]; try done.
    by rewrite (Forall_inv Hvals). }
  split; [exact Hcall |].
  split.
  { intros ev fn args t st Ht Hf Hb.
    destruct fn; cbn in Ht; simplify_eq; reflexivity. }
  split; [reflexivity |].
  intros fuel callee Arguments env st name st0 args st1 Hfn Hargs.
  by rewrite (Hcall _ _ _ _ _ _ _ _ _ Hfn eq_refl Hargs).
Qed.

(** [call_expression_applies] on [len("ab")] and on applying an Integer. *)
Lemma call_expression_applies_witness :
  Eval example_host 2
    (ast.CallExpression (var "len") [ast.StringLiteral "ab"]) global
    initial_state
  = builtin_Fn example_host "len" [String 0 "ab"] (bump initial_state) /\
  applyFunction example_host (Eval example_host 0) (Integer 0 5) []
    initial_state
  = Done (Error 0 "not a function: INTEGER") (bump initial_state).
Proof.
  destruct (call_expression_applies example_host) as (_ & Hnot & _ & Hb).
  split.
  - apply (Hb 1%nat (var "len") [ast.StringLiteral "ab"] global initial_state
             "len" initial_state [String 0 "ab"] (bump initial_state));
      [reflexivity |].
    eapply evaluates_cons; [reflexivity | reflexivity | apply evaluates_nil].
  - apply (Hnot (Eval example_host 0) (Integer 0 5) [] INTEGER_OBJ
             initial_state eq_refl); discriminate.
Defined.

(** ** Equality *)

Lemma same_object_sym left right :
  same_object left right = same_object right left.
Proof.
  destruct left, right; cbn; try reflexivity;
    first [apply Nat.eqb_sym | by destruct Value, Value0
          | apply bool_decide_ext; split; congruence].
Qed.

Lemma same_object_refl o : same_object o o = true.
Proof.
  destruct o; cbn; try reflexivity;
    first [apply Nat.eqb_refl | by destruct Value | by apply bool_decide_eq_true].
Qed.

(** X9: on two operands that are not nil, [==] always returns a Boolean
    singleton and changes nothing; [!=] returns the other singleton; the
    result does not depend on the order of the operands; and an object
    is always [==] to itself. *)
Theorem equality_operators host left right lt rt st :
  Type_ left = Some lt -> Type_ right = Some rt ->
  exists b,
    evalInfixExpression host "==" left right st
    = Done (nativeBoolToBooleanObject b) st /\
    evalInfixExpression host "!=" left right st
    = Done (nativeBoolToBooleanObject (negb b)) st /\
    evalInfixExpression host "==" right left st
    = Done (nativeBoolToBooleanObject b) st /\
    (left = right -> b = true).
Proof.
  intros Hl Hr.
  destruct (decide (lt = INTEGER_OBJ /\ rt = INTEGER_OBJ)) as [[-> ->] | Hi].
  { destruct left; try discriminate Hl. destruct right; try discriminate Hr.
    exists (bool_decide (Value = Value0)).
    rewrite !evalInfixExpression_integers. cbn.
    repeat split.
    - do 2 f_equal. by rewrite <- bool_decide_not.
    - do 2 f_equal. apply bool_decide_ext. split; congruence.
    - intros [= _ ->]. by apply bool_decide_eq_true. }
  destruct (decide (lt = STRING_OBJ /\ rt = STRING_OBJ)) as [[-> ->] | Hs].
  { destruct left; try discriminate Hl. destruct right; try discriminate Hr.
    exists (bool_decide (Value = Value0)).
    rewrite !evalInfixExpression_strings. cbn.
    repeat split.
    - do 2 f_equal. by rewrite <- bool_decide_not.
    - do 2 f_equal. apply bool_decide_ext. split; congruence.
    - intros [= _ ->]. by apply bool_decide_eq_true. }
  exists (same_object left right).
  rewrite !(evalInfixExpression_others _ _ _ _ _ _ _ Hl Hr Hi Hs).
  rewrite (evalInfixExpression_others _ _ _ _ _ _ _ Hr Hl) by tauto.
  cbn. repeat split.
  - by rewrite same_object_sym.
  - intros ->. apply same_object_refl.
Qed.

(** [equality_operators] on an Array compared with itself. *)
Lemma equality_operators_witness :
  exists b,
    evalInfixExpression example_host "==" (Array 0 []) (Array 0 [])
      initial_state = Done (nativeBoolToBooleanObject b) initial_state /\
    evalInfixExpression example_host "!=" (Array 0 []) (Array 0 [])
      initial_state = Done (nativeBoolToBooleanObject (negb b)) initial_state /\
    evalInfixExpression example_host "==" (Array 0 []) (Array 0 [])
      initial_state = Done (nativeBoolToBooleanObject b) initial_state /\
    (Array 0 [] = Array 0 [] -> b = true).
Proof.
  apply (equality_operators example_host (Array 0 []) (Array 0 [])
           ARRAY_OBJ ARRAY_OBJ initial_state); reflexivity.
Defined.

(** ** Prefix operators and integer arithmetic *)


Lemma wrap64_id z : is_int64 z -> wrap64 z = z.
Proof.
  unfold is_int64, wrap64. intros Hz. rewrite Z.mod_small by lia. lia.
Qed.


(** X10: the prefix operator [-] negates an Integer in [int64]
    arithmetic (so negating twice gives the value back, and the smallest
    [int64] is its own negation); on any other kind it is the Error
    "unknown operator: -<type>", and on the nil interface a Go panic; a
    prefix operator other than [!] and [-] is the Error
    "unknown operator: <op><type>"; and applying [!] three times is
    applying it once. *)
Theorem prefix_operators host :
  (forall p v st,
     evalPrefixExpression host "-" (Integer p v) st
     = Done (Integer (next_ptr st) (wrap64 (- v))) (bump st)) /\
  (forall v, is_int64 v -> wrap64 (- wrap64 (- v)) = v) /\
  wrap64 (- (- 2 ^ 63)) = - 2 ^ 63 /\
  (forall right t st,
     Type_ right = Some t -> t <> INTEGER_OBJ ->
     evalPrefixExpression host "-" right st
     = Done (Error (next_ptr st) ("unknown operator: -" +:+ type_name host t))
         (bump st)) /\
  (forall st, evalPrefixExpression host "-" nil st = Panic NilDereference) /\
  (forall operator right t st,
     operator <> "!" -> operator <> "-" -> Type_ right = Some t ->
     evalPrefixExpression host operator right st
     = Done (Error (next_ptr st)
               ("unknown operator: " +:+ operator +:+ type_name host t))
         (bump st)) /\
  (forall right,
     evalBangOperatorExpression
       (evalBangOperatorExpression (evalBangOperatorExpression right))
     = evalBangOperatorExpression right).
Proof.
  split; [reflexivity |].
  split.
  { intros v Hv. unfold is_int64 in Hv.
    destruct (decide (v = - 2 ^ 63)) as [-> | Hmin]; [reflexivity |].
    rewrite (wrap64_id (- v)) by (unfold is_int64; lia).
    rewrite Z.opp_involutive. apply wrap64_id. unfold is_int64. lia. }
  split; [reflexivity |].
  split.
  { intros right t st Ht Hne. unfold evalPrefixExpression.
    rewrite decide_False by done. rewrite decide_True by done.
    unfold evalMinusPrefixOperatorExpression, bind.
    rewrite (typeOf_Some _ _ _ Ht). by rewrite decide_True. }
  split; [reflexivity |].
  split.
  { intros operator right t st Hb Hm Ht. unfold evalPrefixExpression.
    rewrite !decide_False by done. unfold bind.
    by rewrite (typeOf_Some _ _ _ Ht). }
  intros right. by destruct right as [| | [] | | | | | | | |].
Qed.

(** [prefix_operators] on [-true] and on negating 5 twice. *)
Lemma prefix_operators_witness :
  evalPrefixExpression example_host "-" TRUE initial_state
  = Done (Error 0 "unknown operator: -BOOLEAN") (bump initial_state) /\
  wrap64 (- wrap64 (- 5)) = 5.
Proof.
  destruct (prefix_operators example_host) as (_ & Hinv & _ & Hunk & _).
  split.
  - apply (Hunk TRUE BOOLEAN_OBJ initial_state eq_refl). discriminate.
  - apply (Hinv 5). unfold is_int64. lia.
Defined.



(** ** Conditionals *)

(** X12: an [if] whose condition evaluates to [NULL] or [FALSE] and
    which has no alternative is [NULL], in the state the condition left;
    the branch that is not taken is never evaluated: with a truthy
    condition the result does not depend on the alternative, with a falsy
    one it does not depend on the consequence. *)
Theorem conditional_branches host fuel Condition env st condition st1 :
  Eval host fuel (ast.Expr Condition) env st = Done condition st1 ->
  isError condition = false ->
  (isTruthy condition = false ->
   forall Consequence,
     Eval host (S fuel) (ast.IfExpression Condition Consequence None) env st
     = Done NULL st1) /\
  (isTruthy condition = true ->
   forall Consequence Alternative Alternative',
     Eval host (S fuel)
       (ast.IfExpression Condition Consequence Alternative) env st
     = Eval host (S fuel)
         (ast.IfExpression Condition Consequence Alternative') env st) /\
  (isTruthy condition = false ->
   forall Consequence Consequence' Alternative,
     Eval host (S fuel)
       (ast.IfExpression Condition Consequence Alternative) env st
     = Eval host (S fuel)
         (ast.IfExpression Condition Consequence' Alternative) env st).
Proof.
  intros Hc Herr.
  repeat split; intros Ht; intros; rewrite !Eval_S; cbn [Eval_node];
    unfold evalIfExpression, bind; by rewrite Hc, Herr, Ht.
Qed.

(** [conditional_branches] on the condition [1 > 2]. *)
Lemma conditional_branches_witness :
  Eval example_host 3
    (ast.IfExpression (ast.InfixExpression (int 1) ">" (int 2))
       [expr (int 3)] None) global initial_state
  = Done NULL (bump (bump initial_state)).
Proof.
  apply (proj1 (conditional_branches example_host 2
                  (ast.InfixExpression (int 1) ">" (int 2)) global
                  initial_state FALSE (bump (bump initial_state))
                  eq_refl eq_refl)).
  reflexivity.
Defined.

(** ** The state only grows *)

Lemma extends_refl st : extends st st.
Proof. by repeat split. Qed.

Lemma extends_trans st1 st2 st3 :
  extends st1 st2 -> extends st2 st3 -> extends st1 st3.
Proof.
  intros (Hp & Hr & Hl & Hb) (Hp' & Hr' & Hl' & Hb').
  repeat split; try lia. intros a key Hs. by apply Hb', Hb.
Qed.

Lemma grows_ret {A} (a : A) : grows (ret a).
Proof. intros st a' st' [= _ <-]. apply extends_refl. Qed.

Lemma grows_panic {A} p : grows (@panic A p).
Proof. by intros st a st'. Qed.

Lemma grows_bind {A B} (m : M A) (k : A -> M B) :
  grows m -> (forall a, grows (k a)) -> grows (bind m k).
Proof.
  intros Hm Hk st b st'. unfold bind.
  destruct (m st) as [a st1 | |] eqn:Em; try discriminate.
  intros Ek. eapply extends_trans; [by eapply Hm | by eapply Hk].
Qed.

Lemma grows_alloc : grows alloc.
Proof. intros st a st' [= _ <-]. repeat split; cbn; auto with lia. Qed.

Lemma grows_next_range : grows next_range.
Proof. intros st a st' [= _ <-]. repeat split; cbn; auto with lia. Qed.

Lemma grows_typeOf o : grows (typeOf o).
Proof.
  unfold typeOf. destruct (Type_ o); [apply grows_ret | apply grows_panic].
Qed.

Lemma grows_newError message : grows (newError message).
Proof.
  apply grows_bind; [apply grows_alloc |]. intros p. apply grows_ret.
Qed.

Lemma grows_Get env key : grows (Get env key).
Proof. intros st a st' [= _ <-]. apply extends_refl. Qed.

Lemma grows_Set env key value : grows (Set_ env key value).
Proof.
  intros st a st' [= _ <-]. repeat split; cbn; try lia.
  - by rewrite length_alter.
  - intros b key' Hs. unfold store_at in *.
    destruct (decide (store_of env = b)) as [<- | Hne].
    + rewrite list_lookup_alter_eq.
      destruct (stores st !! store_of env) as [s |]; cbn in *; [| done].
      destruct (decide (key = key')) as [<- | Hk].
      * rewrite lookup_insert_eq. by eexists.
      * by rewrite lookup_insert_ne.
    + by rewrite list_lookup_alter_ne.
Qed.

Lemma grows_NewEnclosedEnvironment outer :
  grows (NewEnclosedEnvironment outer).
Proof.
  intros st a st' [= _ <-]. repeat split; cbn; try lia.
  - rewrite length_app. lia.
  - intros b key Hs. unfold store_at in *.
    destruct (stores st !! b) as [s |] eqn:Hb; cbn in Hs.
    + by rewrite (lookup_app_l_Some _ _ _ _ Hb).
    + rewrite lookup_empty in Hs. by destruct Hs.
Qed.

Ltac grows_step :=
  first
    [ apply grows_ret
    | apply grows_panic
    | apply grows_alloc
    | apply grows_next_range
    | apply grows_typeOf
    | apply grows_newError
    | apply grows_Get
    | apply grows_Set
    | apply grows_NewEnclosedEnvironment
    | apply grows_bind; [| intros ?]
    | case_decide
    | case_match ].

Ltac grows_auto := repeat grows_step.

Lemma grows_evalPrefixExpression host operator right :
  grows (evalPrefixExpression host operator right).
Proof.
  unfold evalPrefixExpression, evalMinusPrefixOperatorExpression.
  grows_auto.
Qed.

Lemma grows_evalInfixExpression host operator left right :
  grows (evalInfixExpression host operator left right).
Proof.
  unfold evalInfixExpression, both_of_type, evalIntegerInfixExpression,
    evalStringInfixExpression.
  grows_auto.
Qed.

Lemma grows_evalIndexExpression host left index :
  grows (evalIndexExpression host left index).
Proof.
  unfold evalIndexExpression, evalArrayIndexExpression,
    evalHashIndexExpression.
  grows_auto.
Qed.

Lemma grows_evalIdentifier host name env :
  grows (evalIdentifier host name env).
Proof. unfold evalIdentifier. grows_auto. Qed.

Lemma grows_bind_parameters env params :
  forall args idx, grows (bind_parameters env params args idx).
Proof.
  induction params as [| param rest IH]; intros args idx; cbn.
  - apply grows_ret.
  - destruct (args !! idx); [| apply grows_panic].
    apply grows_bind; [apply grows_Set | intros _; apply IH].
Qed.

Lemma grows_extendFunctionEnv Parameters fnEnv args :
  grows (extendFunctionEnv Parameters fnEnv args).
Proof.
  unfold extendFunctionEnv.
  apply grows_bind; [apply grows_NewEnclosedEnvironment |].
  intros env. apply grows_bind; [apply grows_bind_parameters |].
  intros _. apply grows_ret.
Qed.

Section Growth.

Context (host : Host).

Hypothesis builtins_grow : forall name args, grows (builtin_Fn host name args).

Context (ev : ast.Node -> Environment -> M Object).

Hypothesis ev_grows : forall node env, grows (ev node env).

Lemma grows_evalProgram_from stmts :
  forall result env, grows (evalProgram_from ev result stmts env).
Proof.
  induction stmts as [| statement rest IH]; intros result env; cbn.
  - apply grows_ret.
  - apply grows_bind; [apply ev_grows |].
    intros r. destruct r; first [apply IH | apply grows_ret].
Qed.

Lemma grows_evalStatements_from stmts :
  forall result env, grows (evalStatements_from ev result stmts env).
Proof.
  induction stmts as [| statement rest IH]; intros result env; cbn.
  - apply grows_ret.
  - apply grows_bind; [apply ev_grows |].
    intros r. destruct (is_signal r); [apply grows_ret | apply IH].
Qed.

Lemma grows_evalExpressions_from exps :
  forall result env, grows (evalExpressions_from ev result exps env).
Proof.
  induction exps as [| exp rest IH]; intros result env; cbn.
  - apply grows_ret.
  - apply grows_bind; [apply ev_grows |].
    intros r. destruct (isError r); [apply grows_ret | apply IH].
Qed.

Lemma grows_evalIfExpression Condition Consequence Alternative env :
  grows (evalIfExpression ev Condition Consequence Alternative env).
Proof.
  unfold evalIfExpression. apply grows_bind; [apply ev_grows |].
  intros condition. destruct (isError condition); [apply grows_ret |].
  destruct (isTruthy condition); [apply ev_grows |].
  destruct Alternative; [apply ev_grows | apply grows_ret].
Qed.

Lemma grows_applyFunction fn args : grows (applyFunction host ev fn args).
Proof.
  destruct fn; cbn; try (grows_auto; fail).
  - apply grows_bind; [apply grows_extendFunctionEnv |].
    intros extendedEnv. apply grows_bind; [apply ev_grows |].
    intros evaluated. apply grows_ret.
  - apply builtins_grow.
Qed.

Lemma grows_evalHashLiteral_from todo :
  forall ptr pairs env,
    grows (evalHashLiteral_from host ev ptr pairs todo env).
Proof.
  induction todo as [| [key value] rest IH]; intros ptr pairs env; cbn.
  - apply grows_ret.
  - apply grows_bind; [apply ev_grows |].
    intros keyObject. destruct (isError keyObject); [apply grows_ret |].
    destruct (HashKey_of host keyObject) as [hashedKey |]; [| grows_auto].
    apply grows_bind; [apply ev_grows |].
    intros valueObject.
    destruct (isError valueObject); [apply grows_ret | apply IH].
Qed.

Lemma grows_Eval_node node env : grows (Eval_node host ev node env).
Proof.
  destruct node as [stmts | stmts | [name value | e | e] | e].
  - apply grows_evalProgram_from.
  - apply grows_evalStatements_from.
  - cbn. apply grows_bind; [apply ev_grows |]. intros evaluated. grows_auto.
  - cbn. apply grows_bind; [apply ev_grows |]. intros evaluated. grows_auto.
  - apply ev_grows.
  - destruct e; cbn.
    + apply grows_evalIdentifier.
    + grows_auto.
    + apply grows_ret.
    + grows_auto.
    + apply grows_bind; [apply ev_grows |].
      intros r. destruct (isError r); [apply grows_ret |].
      apply grows_evalPrefixExpression.
    + apply grows_bind; [apply ev_grows |].
      intros l. destruct (isError l); [apply grows_ret |].
      apply grows_bind; [apply ev_grows |].
      intros r. destruct (isError r); [apply grows_ret |].
      apply grows_evalInfixExpression.
    + apply grows_evalIfExpression.
    + grows_auto.
    + apply grows_bind; [apply ev_grows |].
      intros function. destruct (isError function); [apply grows_ret |].
      apply grows_bind; [apply grows_evalExpressions_from |].
      intros args. destruct args as [| arg [| arg' args]];
        try apply grows_applyFunction.
      destruct (isError arg); [apply grows_ret | apply grows_applyFunction].
    + apply grows_bind; [apply grows_evalExpressions_from |].
      intros elements. grows_auto.
    + apply grows_bind; [apply ev_grows |].
      intros l. destruct (isError l); [apply grows_ret |].
      apply grows_bind; [apply ev_grows |].
      intros r. destruct (isError r); [apply grows_ret |].
      apply grows_evalIndexExpression.
    + apply grows_bind; [apply grows_alloc |].
      intros ptr. apply grows_bind; [apply grows_next_range |].
      intros n. apply grows_evalHashLiteral_from.
Qed.

End Growth.

Lemma grows_Eval host :
  (forall name args, grows (builtin_Fn host name args)) ->
  forall fuel node env, grows (Eval host fuel node env).
Proof.
  intros Hfn. induction fuel as [| fuel IH]; intros node env.
  - by intros st a st'.
  - rewrite Eval_S. by apply grows_Eval_node.
Qed.

Lemma evaluates_extends ev env st exps values st' :
  (forall node env, grows (ev node env)) ->
  evaluates ev env st exps values st' -> extends st st'.
Proof.
  intros Hev. induction 1 as [| st exp rest value st1 values st' He _ _ IH].
  - apply extends_refl.
  - eapply extends_trans; [by eapply Hev | exact IH].
Qed.

Lemma grows_len args : grows (example.len args).
Proof. unfold len. grows_auto. Qed.

(** X13: provided the builtins of the host only extend the state, so
    does every evaluation: whenever [Eval] returns, no pointer and no
    store address given out before is given out again, no scope has
    disappeared, and every name that a scope bound before is still bound
    in that scope (its value may have changed); nothing is ever
    deleted. *)
Theorem evaluation_only_extends host fuel node env st r st' :
  (forall name args st0 r0 st0',
     builtin_Fn host name args st0 = Done r0 st0' -> extends st0 st0') ->
  Eval host fuel node env st = Done r st' ->
  extends st st'.
Proof.
  intros Hfn Hev. eapply (grows_Eval host); [| exact Hev].
  intros name args st0 r0 st0'. apply Hfn.
Qed.

(** [evaluation_only_extends] on [let x = if (true) { return 5 };]. *)
Lemma evaluation_only_extends_witness :
  extends initial_state
    (mkState [{["x" := ReturnValue 1 (Integer 0 5)]}] 2 0).
Proof.
  apply (evaluation_only_extends example_host 5 let_of_return global
           initial_state nil).
  - intros name args st0 r0 st0'. apply grows_len.
  - reflexivity.
Defined.

Lemma Eval_InfixExpression_values host fuel Left Operator Right env st left
    st1 right st2 :
  Eval host fuel (ast.Expr Left) env st = Done left st1 ->
  isError left = false ->
  Eval host fuel (ast.Expr Right) env st1 = Done right st2 ->
  isError right = false ->
  Eval host (S fuel) (ast.InfixExpression Left Operator Right) env st
  = evalInfixExpression host Operator left right st2.
Proof.
  intros Hl Hle Hr Hre. rewrite Eval_S. cbn [Eval_node]. unfold bind.
  by rewrite Hl, Hle, Hr, Hre.
Qed.

(** X14: objects are compared by identity and every literal allocates:
    provided the builtins only extend the state, two array literals whose
    elements all evaluate to non-Errors are never [==] and always [!=],
    whatever their elements; and so are two function literals. *)
Theorem literals_are_distinct host :
  (forall name args st0 r0 st0',
     builtin_Fn host name args st0 = Done r0 st0' -> extends st0 st0') ->
  (forall fuel env xs ys st vs st1 ws st2,
     evaluates (Eval host fuel) env st xs vs st1 ->
     evaluates (Eval host fuel) env (bump st1) ys ws st2 ->
     Eval host (S (S fuel))
       (ast.InfixExpression (ast.ArrayLiteral xs) "==" (ast.ArrayLiteral ys))
       env st
     = Done FALSE (bump st2) /\
     Eval host (S (S fuel))
       (ast.InfixExpression (ast.ArrayLiteral xs) "!=" (ast.ArrayLiteral ys))
       env st
     = Done TRUE (bump st2)) /\
  (forall fuel env ps body ps' body' st,
     Eval host (S (S fuel))
       (ast.InfixExpression (ast.FunctionLiteral ps body) "=="
          (ast.FunctionLiteral ps' body')) env st
     = Done FALSE (bump (bump st))).
Proof.
  intros Hfn. split.
  - intros fuel env xs ys st vs st1 ws st2 Hxs Hys.
    pose proof (Eval_ArrayLiteral_evaluates _ _ _ _ _ _ _ Hxs) as Hl.
    pose proof (Eval_ArrayLiteral_evaluates _ _ _ _ _ _ _ Hys) as Hr.
    assert (Hext : extends (bump st1) st2).
    { eapply evaluates_extends; [| exact Hys].
      apply grows_Eval. intros name args st0 r0 st0'. apply Hfn. }
    destruct Hext as (Hptr & _). cbn in Hptr.
    assert (Hne : Nat.eqb (next_ptr st1) (next_ptr st2) = false)
      by (apply Nat.eqb_neq; lia).
    split;
      rewrite (Eval_InfixExpression_values _ _ _ _ _ _ _ _ _ _ _
                 Hl eq_refl Hr eq_refl);
      rewrite (evalInfixExpression_others _ _ _ _ ARRAY_OBJ ARRAY_OBJ)
        by (done || intros []; done);
      cbn; by rewrite Hne.
  - intros fuel env ps body ps' body' st.
    rewrite (Eval_InfixExpression_values host (S fuel)
               (ast.FunctionLiteral ps body) "=="
               (ast.FunctionLiteral ps' body') env st
               (Function (next_ptr st) ps body env) (bump st)
               (Function (S (next_ptr st)) ps' body' env) (bump (bump st))
               eq_refl eq_refl eq_refl eq_refl).
    rewrite (evalInfixExpression_others _ _ _ _ FUNCTION_OBJ FUNCTION_OBJ)
      by (done || intros []; done).
    cbn. by rewrite (proj2 (Nat.eqb_neq _ _)) by lia.
Qed.

(** [literals_are_distinct] on [[1] == [1]]. *)
Lemma literals_are_distinct_witness :
  Eval example_host 3 array_equals_array global initial_state
  = Done FALSE (mkState [∅] 4 0).
Proof.
  refine (proj1 (proj1 (literals_are_distinct example_host _) 1%nat global
                   [int 1] [int 1] initial_state [Integer 0 1]
                   (bump initial_state) [Integer 2 1] (mkState [∅] 3 0) _ _)).
  - intros name args st0 r0 st0'. apply grows_len.
  - eapply evaluates_cons; [reflexivity | reflexivity | apply evaluates_nil].
  - eapply evaluates_cons; [reflexivity | reflexivity | apply evaluates_nil].
Defined.

(** ** The earlier revision *)

Lemma agree_ret {A} (a : A) (Q : A -> Prop) : Q a -> agree_on (ret a) (ret a) Q.
Proof. intros Ha st Hst. split; [done |]. by intros a' st' [= <- <-]. Qed.

Lemma agree_bind {A B} (m1 m2 : M A) (k1 k2 : A -> M B) Q R :
  agree_on m1 m2 Q ->
  (forall a, Q a -> agree_on (k1 a) (k2 a) R) ->
  agree_on (bind m1 k1) (bind m2 k2) R.
Proof.
  intros Hm Hk st Hst. destruct (Hm st Hst) as [Heq Hpost].
  unfold bind. rewrite Heq.
  destruct (m2 st) as [a st1 | |]; [| done | done].
  destruct (Hpost a st1 eq_refl) as [Ha Hst1]. by apply Hk.
Qed.

Lemma agree_pure (m : M Object) :
  reads_only m -> returns_base m ->
  agree_on m m (fun r => base_object r = true).
Proof.
  intros Hread Hret st Hst. split; [done |].
  intros a st' Em. split; [by eapply Hret |].
  unfold base_stores. by rewrite (Hread _ _ _ Em).
Qed.

Lemma returns_base_ret o : base_object o = true -> returns_base (ret o).
Proof. by intros Ho st a st' [= <- _]. Qed.

Lemma returns_base_panic p : returns_base (panic p).
Proof. by intros st a st'. Qed.

Lemma returns_base_newError message : returns_base (newError message).
Proof. by intros st a st' [= <- _]. Qed.

Lemma returns_base_bind {A} (m : M A) (k : A -> M Object) :
  (forall a, returns_base (k a)) -> returns_base (bind m k).
Proof.
  intros Hk st b st'. unfold bind.
  destruct (m st) as [a st1 | |]; try discriminate. apply Hk.
Qed.

Lemma base_object_nativeBool b :
  base_object (nativeBoolToBooleanObject b) = true.
Proof. by destruct b. Qed.

Ltac returns_base_step :=
  first
    [ apply returns_base_panic
    | apply returns_base_newError
    | apply returns_base_ret; first [reflexivity | apply base_object_nativeBool]
    | apply returns_base_bind; intros ?
    | case_decide
    | case_match ].

Ltac returns_base_auto := repeat returns_base_step.

Lemma returns_base_evalPrefixExpression host operator right :
  returns_base (evalPrefixExpression host operator right).
Proof.
  unfold evalPrefixExpression, evalMinusPrefixOperatorExpression.
  destruct (decide (operator = "!")).
  { apply returns_base_ret. by destruct right as [| | [] | | | | | | | |]. }
  returns_base_auto.
Qed.

Lemma returns_base_evalInfixExpression host operator left right :
  returns_base (evaluator_base.evalInfixExpression host operator left right).
Proof.
  unfold evaluator_base.evalInfixExpression, both_of_type,
    evalIntegerInfixExpression.
  returns_base_auto.
Qed.

Lemma reads_only_base_evalInfixExpression host operator left right :
  reads_only (evaluator_base.evalInfixExpression host operator left right).
Proof.
  unfold evaluator_base.evalInfixExpression, both_of_type,
    evalIntegerInfixExpression.
  reads_only_auto.
Qed.

Lemma both_of_type_state t left right st b st' :
  both_of_type t left right st = Done b st' -> st' = st.
Proof.
  unfold both_of_type, bind, typeOf.
  destruct (Type_ left) as [lt |]; [| discriminate].
  cbn. destruct (decide (lt = t)).
  - destruct (Type_ right) as [rt |]; [| discriminate]. by intros [= _ <-].
  - by intros [= _ <-].
Qed.

Lemma both_of_type_not_left t left right st :
  Type_ left <> Some t -> Type_ left <> None ->
  both_of_type t left right st = Done false st.
Proof.
  intros Ht Hnil. unfold both_of_type, bind, typeOf.
  destruct (Type_ left) as [lt |]; [| done]. cbn.
  rewrite decide_False; [done | congruence].
Qed.

(** Without a String on the left the two revisions of
    [evalInfixExpression] coincide. *)
Lemma evalInfixExpression_base host operator left right st :
  base_object left = true ->
  evaluator_base.evalInfixExpression host operator left right st
  = evalInfixExpression host operator left right st.
Proof.
  intros Hl. unfold evaluator_base.evalInfixExpression, evalInfixExpression.
  unfold bind.
  destruct (both_of_type INTEGER_OBJ left right st) as [ints st1 | |] eqn:Ei;
    try done.
  destruct ints; [done |].
  apply both_of_type_state in Ei as Hst. subst st1.
  rewrite both_of_type_not_left; [done | |].
  - by destruct left.
  - intros Hnil. unfold both_of_type, bind, typeOf in Ei.
    by rewrite Hnil in Ei.
Qed.

Lemma evalIdentifier_base host name env st :
  builtins host = ∅ ->
  evaluator_base.evalIdentifier name env st = evalIdentifier host name env st.
Proof.
  intros Hreg. unfold evalIdentifier, evaluator_base.evalIdentifier, bind, Get.
  destruct (Get_in (stores st) env name) as [value [|]]; cbn; [done |].
  rewrite decide_False; [done |]. rewrite Hreg. set_solver.
Qed.

Lemma Get_in_base st env key :
  base_stores st -> base_object (Get_in (stores st) env key).1 = true.
Proof.
  intros Hst. induction env as [a | a o IH] using Environment_chain_ind; cbn.
  - destruct (store_at (stores st) a !! key) as [value |] eqn:Hv; [| done].
    unfold store_at in Hv.
    destruct (stores st !! a) as [s |] eqn:Hs; cbn in Hv; [| done].
    exact (proj1 (Forall_lookup _ _) Hst _ _ Hs _ _ Hv).
  - destruct (store_at (stores st) a !! key) as [value |] eqn:Hv; [| done].
    unfold store_at in Hv.
    destruct (stores st !! a) as [s |] eqn:Hs; cbn in Hv; [| done].
    exact (proj1 (Forall_lookup _ _) Hst _ _ Hs _ _ Hv).
Qed.

Lemma base_stores_Set env key value st st' :
  base_object value = true -> base_stores st ->
  Set_ env key value st = Done value st' -> base_stores st'.
Proof.
  intros Hv Hst [= <-]. unfold base_stores in *. cbn.
  apply Forall_alter; [done |]. intros s _ Hs. by apply map_Forall_insert_2.
Qed.

Lemma base_stores_bind_parameters env params :
  forall args idx st u st',
    Forall (fun arg => base_object arg = true) args ->
    base_stores st ->
    bind_parameters env params args idx st = Done u st' ->
    base_stores st'.
Proof.
  induction params as [| param rest IH]; intros args idx st u st' Hargs Hst;
    cbn.
  - by intros [= _ <-].
  - destruct (args !! idx) as [arg |] eqn:Harg; [| done].
    unfold bind.
    destruct (Set_ env param arg st) as [v st1 | |] eqn:Hset; try done.
    assert (v = arg) as -> by (by injection Hset as <- _).
    apply IH; [done |].
    eapply base_stores_Set; [| exact Hst | exact Hset].
    exact (proj1 (Forall_lookup _ _) Hargs _ _ Harg).
Qed.

Lemma base_stores_extendFunctionEnv Parameters fnEnv args st env st' :
  Forall (fun arg => base_object arg = true) args ->
  base_stores st ->
  extendFunctionEnv Parameters fnEnv args st = Done env st' ->
  base_stores st'.
Proof.
  intros Hargs Hst. unfold extendFunctionEnv, NewEnclosedEnvironment.
  cbn. unfold bind at 1. cbn. unfold bind.
  destruct (bind_parameters _ _ _ _ _) as [u st1 | |] eqn:Hb; try done.
  intros [= _ <-].
  eapply base_stores_bind_parameters; [exact Hargs | | exact Hb].
  unfold base_stores in *. cbn. apply Forall_app. split; [done |].
  constructor; [apply map_Forall_empty | constructor].
Qed.

Section BaseAgrees.

Context (host : Host).

Hypothesis no_builtins : builtins host = ∅.

Context (ev_base ev : ast.Node -> Environment -> M Object).

Hypothesis ev_agree :
  forall node env,
    base_node node = true ->
    agree_on (ev_base node env) (ev node env)
      (fun r => base_object r = true).

Lemma agree_evalProgram_from stmts :
  forall result env,
    forallb base_statement stmts = true ->
    base_object result = true ->
    agree_on (evalProgram_from ev_base result stmts env)
      (evalProgram_from ev result stmts env)
      (fun r => base_object r = true).
Proof.
  induction stmts as [| statement rest IH]; intros result env Hs Hres; cbn.
  - by apply agree_ret.
  - cbn in Hs. apply andb_prop in Hs as [Hs Hrest].
    eapply agree_bind; [by apply ev_agree |].
    intros r Hr. destruct r; first [by apply IH | by apply agree_ret].
Qed.

Lemma agree_evalStatements_from stmts :
  forall result env,
    forallb base_statement stmts = true ->
    base_object result = true ->
    agree_on (evalStatements_from ev_base result stmts env)
      (evalStatements_from ev result stmts env)
      (fun r => base_object r = true).
Proof.
  induction stmts as [| statement rest IH]; intros result env Hs Hres; cbn.
  - by apply agree_ret.
  - cbn in Hs. apply andb_prop in Hs as [Hs Hrest].
    eapply agree_bind; [by apply ev_agree |].
    intros r Hr. destruct (is_signal r); [by apply agree_ret | by apply IH].
Qed.

Lemma agree_evalExpressions_from exps :
  forall result env,
    forallb base_expression exps = true ->
    Forall (fun arg => base_object arg = true) result ->
    agree_on (evalExpressions_from ev_base result exps env)
      (evalExpressions_from ev result exps env)
      (Forall (fun arg => base_object arg = true)).
Proof.
  induction exps as [| exp rest IH]; intros result env Hs Hres; cbn.
  - by apply agree_ret.
  - cbn in Hs. apply andb_prop in Hs as [Hs Hrest].
    eapply agree_bind; [by apply ev_agree |].
    intros r Hr. destruct (isError r).
    + apply agree_ret. by constructor.
    + apply IH; [done |]. apply Forall_app. split; [done | by constructor].
Qed.

Lemma agree_applyFunction fn args :
  base_object fn = true ->
  Forall (fun arg => base_object arg = true) args ->
  agree_on (evaluator_base.applyFunction host ev_base fn args)
    (applyFunction host ev fn args) (fun r => base_object r = true).
Proof.
  intros Hfn Hargs.
  destruct fn; try discriminate Hfn;
    try (apply agree_pure; [reads_only_auto | returns_base_auto]; fail).
  cbn [evaluator_base.applyFunction applyFunction].
  eapply agree_bind with (Q := fun _ => True).
  - intros st Hst. split; [done |]. intros env st' He. split; [done |].
    by eapply base_stores_extendFunctionEnv.
  - intros extendedEnv _.
    eapply agree_bind; [by apply ev_agree |].
    intros evaluated He. apply agree_ret. by destruct evaluated.
Qed.

Lemma agree_Eval_node node env :
  base_node node = true ->
  agree_on (evaluator_base.Eval_node host ev_base node env)
    (Eval_node host ev node env) (fun r => base_object r = true).
Proof.
  intros Hn.
  destruct node as [stmts | stmts | [name value | e | e] | e]; cbn in Hn.
  - by apply agree_evalProgram_from.
  - by apply agree_evalStatements_from.
  - cbn. eapply agree_bind; [by apply ev_agree |].
    intros evaluated He. destruct (isError evaluated); [by apply agree_ret |].
    eapply agree_bind with (Q := fun _ => True).
    + intros st Hst. split; [done |]. intros v st' Hset. split; [done |].
      assert (v = evaluated) as -> by (by injection Hset as <- _).
      exact (base_stores_Set _ _ _ _ _ He Hst Hset).
    + intros _ _. by apply agree_ret.
  - cbn. eapply agree_bind; [by apply ev_agree |].
    intros evaluated He. destruct (isError evaluated); [by apply agree_ret |].
    intros st Hst. split; [done |]. by intros a st' [= <- <-].
  - by apply ev_agree.
  - destruct e; try discriminate Hn; cbn in Hn |- *.
    + intros st Hst. rewrite (evalIdentifier_base host) by done. split; [done |].
      unfold evalIdentifier, bind, Get.
      pose proof (Get_in_base st env Value Hst) as Hv.
      destruct (Get_in (stores st) env Value) as [value [|]]; cbn in *.
      * by intros a st' [= <- <-].
      * rewrite decide_False by (rewrite no_builtins; set_solver).
        by intros a st' [= <- <-].
    + intros st Hst. split; [done |]. by intros a st' [= <- <-].
    + apply agree_ret. apply base_object_nativeBool.
    + eapply agree_bind; [by apply ev_agree |].
      intros r Hr. destruct (isError r); [by apply agree_ret |].
      apply agree_pure;
        [apply reads_only_evalPrefixExpression
        | apply returns_base_evalPrefixExpression].
    + apply andb_prop in Hn as [Hl Hr].
      eapply agree_bind; [by apply ev_agree |].
      intros l Hlb. destruct (isError l); [by apply agree_ret |].
      eapply agree_bind; [by apply ev_agree |].
      intros r Hrb. destruct (isError r); [by apply agree_ret |].
      intros st Hst. rewrite <- evalInfixExpression_base by done.
      by apply (agree_pure _ (reads_only_base_evalInfixExpression _ _ _ _)
                  (returns_base_evalInfixExpression _ _ _ _)).
    + apply andb_prop in Hn as [Hn Halt]. apply andb_prop in Hn as [Hc Hcons].
      unfold evalIfExpression.
      eapply agree_bind; [by apply ev_agree |].
      intros condition Hcb.
      destruct (isError condition); [by apply agree_ret |].
      destruct (isTruthy condition); [by apply ev_agree |].
      destruct Alternative; [by apply ev_agree | by apply agree_ret].
    + intros st Hst. split; [done |]. by intros a st' [= <- <-].
    + apply andb_prop in Hn as [Hf Hargs].
      eapply agree_bind; [by apply ev_agree |].
      intros function Hfb.
      destruct (isError function); [by apply agree_ret |].
      eapply agree_bind; [by apply agree_evalExpressions_from |].
      intros args Hargsb. destruct args as [| arg [| arg' args]].
      * by apply agree_applyFunction.
      * destruct (isError arg); [| by apply agree_applyFunction].
        apply agree_ret. exact (Forall_inv Hargsb).
      * by apply agree_applyFunction.
Qed.

End BaseAgrees.

(** X15: the later revision extends the earlier one conservatively.  For
    a host with an empty registry, a node in the syntax of the earlier
    revision and a state whose stores bind only values of the earlier
    revision (no String, no Builtin, Functions with bodies in that
    syntax), the two revisions of [Eval] have the same outcome, and what
    they return is again such a value and such a state. *)
Theorem later_revision_extends_earlier host fuel node env st :
  builtins host = ∅ ->
  base_node node = true ->
  base_stores st ->
  evaluator_base.Eval host fuel node env st = Eval host fuel node env st /\
  forall r st',
    Eval host fuel node env st = Done r st' ->
    base_object r = true /\ base_stores st'.
Proof.
  intros Hreg. revert node env st.
  induction fuel as [| fuel IH]; intros node env st Hn Hst.
  - split; [done | by intros r st'].
  - apply (agree_Eval_node host Hreg (evaluator_base.Eval host fuel)
             (Eval host fuel)); [| done | done].
    intros node' env' Hn' st0 Hst0. by apply IH.
Qed.

(** [later_revision_extends_earlier] on
    [let twice = fn(f, x) { f(f(x)) }; twice(fn(n) { n * 2 }, 5)]. *)
Lemma later_revision_extends_earlier_witness :
  evaluator_base.Eval bare_host 12 twice_program global initial_state
  = Eval bare_host 12 twice_program global initial_state /\
  forall r st',
    Eval bare_host 12 twice_program global initial_state = Done r st' ->
    base_object r = true /\ base_stores st'.
Proof.
  apply (later_revision_extends_earlier bare_host 12 twice_program global
           initial_state); [reflexivity | reflexivity |].
  repeat constructor. apply map_Forall_empty.
Defined.

Example twice_program_value :
  value_of (Eval bare_host 12 twice_program global initial_state)
  = Some (Integer 6 20).
Proof. vm_compute. reflexivity. Qed.

(** ** Parameters *)

Lemma bound_cons param params arg args s :
  bound (param :: params) (arg :: args) s
  = bound params args (<[param := arg]> s).
Proof. reflexivity. Qed.

Lemma bound_lookup_other params :
  forall args s name,
    name ∉ params -> bound params args s !! name = s !! name.
Proof.
  induction params as [| param params IH]; intros args s name Hn; [done |].
  destruct args as [| arg args]; [done |].
  rewrite bound_cons, IH by set_solver.
  apply lookup_insert_ne. set_solver.
Qed.

Lemma bound_lookup params :
  forall args s i param arg,
    NoDup params ->
    params !! i = Some param -> args !! i = Some arg ->
    bound params args s !! param = Some arg.
Proof.
  induction params as [| p params IH]; intros args s i param arg Hnd Hp Ha;
    [done |].
  destruct args as [| a args]; [done |].
  apply NoDup_cons in Hnd as [Hnotin Hnd]. rewrite bound_cons.
  destruct i as [| i]; cbn in Hp, Ha.
  - injection Hp as ->. injection Ha as ->.
    rewrite bound_lookup_other by done. apply lookup_insert_eq.
  - by eapply IH.
Qed.

(** X16: when the parameter names of a function are pairwise distinct
    and at least as many arguments are passed, the store of the call binds
    each parameter to the argument at its position and binds nothing
    else; so the function whose body is just one of its parameters
    returns the argument at that parameter's position, the very object
    that was passed (unwrapped, should that object be a ReturnValue). *)
Theorem parameters_are_bound_by_position host Parameters args :
  NoDup Parameters ->
  (length Parameters <= length args)%nat ->
  (forall i param arg,
     Parameters !! i = Some param -> args !! i = Some arg ->
     bound Parameters args ∅ !! param = Some arg) /\
  (forall name, name ∉ Parameters -> bound Parameters args ∅ !! name = None) /\
  (forall fuel q fnEnv st i param arg,
     Parameters !! i = Some param -> args !! i = Some arg ->
     applyFunction host (Eval host (3 + fuel))
       (Function q Parameters [expr (var param)] fnEnv) args st
     = Done (unwrapReturnValue arg)
         (mkState (stores st ++ [bound Parameters args ∅]) (next_ptr st)
            (ranges st))).
Proof.
  intros Hnd Hlen.
  split; [intros i param arg; by apply bound_lookup |].
  split.
  { intros name Hn. by rewrite bound_lookup_other. }
  intros fuel q fnEnv st i param arg Hp Ha.
  rewrite applyFunction_Function by done.
  change (3 + fuel)%nat with (S (S (S fuel))).
  rewrite Eval_S. cbn [Eval_node]. unfold evalStatements.
  rewrite evalStatements_from_cons.
  rewrite Eval_S. cbn [Eval_node expr].
  rewrite Eval_S. cbn [Eval_node var].
  unfold evalIdentifier, bind, Get. cbn [stores Get_in].
  rewrite store_at_app_new, (bound_lookup _ _ _ _ _ _ Hnd Hp Ha).
  cbn. destruct arg; reflexivity.
Qed.

(** [parameters_are_bound_by_position] on [fn(a, b) { b }] applied to two
    Integers. *)
Lemma parameters_are_bound_by_position_witness :
  applyFunction example_host (Eval example_host (3 + 0))
    (Function 0 ["a"; "b"] [expr (var "b")] global) [Integer 1 10; Integer 2 20]
    initial_state
  = Done (Integer 2 20)
      (mkState ([∅] ++ [bound ["a"; "b"] [Integer 1 10; Integer 2 20] ∅]) 0 0).
Proof.
  refine (proj2 (proj2 (parameters_are_bound_by_position example_host
            ["a"; "b"] [Integer 1 10; Integer 2 20] _ _)) 0%nat 0%nat global
            initial_state 1%nat "b" (Integer 2 20) eq_refl eq_refl).
  - apply (bool_decide_unpack _). vm_compute. exact I.
  - cbn. lia.
Defined.
